(** * Harbour Pools passport: the visited-state discipline of app.js and overview.js

    A shallow embedding of the state-dependent logic of the two pages
    (src/app.js, src/overview.js): the date helper [formatDateAU], the
    visited toggle [toggleStamp], the list and stamps renderers, the
    overview markers and the profile reset handler.

    Conventions of the embedding:
    - a JavaScript value read back from JSON is a [JsVal]; numbers are
      restricted to integers ([Z]), which is all an index or a page needs;
    - the [visited] object is a [gmap string Entry]; an entry carries an
      arbitrary [done] value (the consumers test it in different ways) and
      a string [date];
    - the DOM is a record of what the renderers last wrote into it;
    - functions that can throw run in a state-and-exception monad [M];
    - storage.js is not among the sources: its helpers [writeVisited],
      [writeStampsPage] and [countVisited] are modelled from the
      specification, and what [readVisited], [readSelection] and
      [readStampsPage] returned is the initial state. *)

From Stdlib Require Import ZArith Lia Bool Ascii QArith Qround Sorted Permutation.
From stdpp Require Import gmap strings list fin_maps pretty.

Local Open Scope Z_scope.

(** ** JavaScript values *)

Inductive JsVal :=
| JUndefined
| JNull
| JBool (b : bool)
| JNum (n : Z)
| JStr (s : string).

(** ToBoolean: [undefined], [null], [false], [0] and the empty string are
    falsy, everything else is truthy. *)
Definition truthy (v : JsVal) : bool :=
  match v with
  | JUndefined | JNull => false
  | JBool b => b
  | JNum n => negb (n =? 0)
  | JStr s => negb (String.eqb s "")
  end.

(** ToString, as applied by [RegExp.prototype.test] to its argument. *)
Definition ToString (v : JsVal) : string :=
  match v with
  | JUndefined => "undefined"
  | JNull => "null"
  | JBool true => "true"
  | JBool false => "false"
  | JNum n => pretty n
  | JStr s => s
  end.

(** Strict equality with the literal [true]. *)
Definition strict_eq_true (v : JsVal) : bool :=
  match v with
  | JBool true => true
  | _ => false
  end.

(** ** Exceptions *)

Inductive JsError :=
| TypeError (msg : string)
| SecurityError.

Inductive Result (A : Type) :=
| Ok (a : A)
| Throw (e : JsError).
Arguments Ok {A} a.
Arguments Throw {A} e.

(** ** A regular-expression fragment: anchored sequences of classes

    A matcher consumes a prefix of its input and returns the rest. The
    patterns used by the program have neither alternation nor repetition
    of unknown length, so a matcher has at most one way to succeed. *)

Definition Matcher := string -> option string.

(** [\d]: an ASCII digit. *)
Definition is_digit (c : ascii) : bool :=
  ((48 <=? nat_of_ascii c) && (nat_of_ascii c <=? 57))%nat.

(** [\d{n}] *)
Fixpoint re_digits (n : nat) : Matcher :=
  fun s =>
    match n with
    | O => Some s
    | S k =>
        match s with
        | String c r => if is_digit c then re_digits k r else None
        | EmptyString => None
        end
    end.

(** A literal character. *)
Definition re_char (a : ascii) : Matcher :=
  fun s =>
    match s with
    | String c r => if Ascii.eqb c a then Some r else None
    | EmptyString => None
    end.

Definition re_seq (m1 m2 : Matcher) : Matcher :=
  fun s => match m1 s with Some r => m2 r | None => None end.

Infix ";;;" := re_seq (at level 40, left associativity).

(** [/^ m $/.test(s)]: the whole input is consumed. *)
Definition re_test (m : Matcher) (s : string) : bool :=
  match m s with
  | Some EmptyString => true
  | _ => false
  end.

(** [/^\d{4}-\d{2}-\d{2}$/] *)
Definition iso_re : Matcher :=
  re_digits 4 ;;; re_char "-" ;;; re_digits 2 ;;; re_char "-" ;;; re_digits 2.

(** ** String helpers *)

(** [s.split(sep)] for a one-character separator. *)
Fixpoint split (sep : ascii) (s : string) : list string :=
  match s with
  | EmptyString => [EmptyString]
  | String c r =>
      if Ascii.eqb c sep then EmptyString :: split sep r
      else match split sep r with
           | h :: t => String c h :: t
           | [] => [String c EmptyString]
           end
  end.

(** An element of an array destructuring pattern, as it prints inside a
    template literal: a missing element is [undefined]. *)
Definition destructured (parts : list string) (i : nat) : string :=
  match parts !! i with
  | Some s => s
  | None => "undefined"
  end.

(** ** formatDateAU (app.js, lines 91-100) *)

Definition formatDateAU (d : JsVal) : Result JsVal :=
  if negb (truthy d) then Ok (JStr "")
  else if re_test iso_re (ToString d) then
    match d with
    | JStr s =>
        let parts := split "-" s in
        let y := destructured parts 0 in
        let m := destructured parts 1 in
        let day := destructured parts 2 in
        Ok (JStr (day +:+ "/" +:+ m +:+ "/" +:+ y))
    | _ => Throw (TypeError "d.split is not a function")
    end
  else Ok d.

(** The shape the specification calls the legacy ISO form: four digits,
    a hyphen, two digits, a hyphen, two digits. *)
Definition all_digits (s : string) : Prop :=
  Forall (fun c => is_digit c = true) (String.list_ascii_of_string s).

Definition LegacyISO (y m d : string) : Prop :=
  String.length y = 4%nat /\ String.length m = 2%nat /\ String.length d = 2%nat /\
  all_digits y /\ all_digits m /\ all_digits d.

Definition iso_string (y m d : string) : string :=
  y +:+ "-" +:+ m +:+ "-" +:+ d.

Definition display_string (y m d : string) : string :=
  d +:+ "/" +:+ m +:+ "/" +:+ y.

Definition matches_iso (s : string) : Prop :=
  exists y m d, LegacyISO y m d /\ s = iso_string y m d.

(** ** Data model *)

(** A pool of the catalog (pools.json). The coordinates only feed the map
    widget and are left out. *)
Record PoolRecord := {
  id : string;
  name : string;
  suburb : option string;
  stamp : option string
}.

(** A value of the [visited] object: [{ done: ..., date: "..." }]. *)
Record Entry := {
  done : JsVal;
  date : string
}.

(** An entry that records a visit: its [done] field holds. The program
    itself only writes [done: true]; a map read back from the storage may
    carry any value there. *)
Definition VisitedEntry (e : Entry) : Prop := truthy (done e) = true.

(** The pool id [k] is visited: the map has a VisitedEntry for it. *)
Definition hasVisitedEntry (m : gmap string Entry) (k : string) : Prop :=
  exists e, m !! k = Some e /\ VisitedEntry e.

(** The maps of the data model: every entry present records a visit. *)
Definition VisitedMap_ok (m : gmap string Entry) : Prop :=
  forall k e, m !! k = Some e -> VisitedEntry e.

(** [v?.done] for [v = visited[k]]. *)
Definition opt_done (v : option Entry) : JsVal :=
  match v with
  | Some e => done e
  | None => JUndefined
  end.

(** [info && info.done] of overview.js; an entry, being an object, is truthy. *)
Definition and_done (info : option Entry) : JsVal :=
  match info with
  | Some e => done e
  | None => JUndefined
  end.

(** ** The clock: [new Intl.DateTimeFormat('en-AU').format(new Date())] *)

Record Date := {
  day : Z;
  month : Z;
  year : Z
}.

Definition two_digit (n : Z) : string :=
  if n <? 10 then "0" +:+ pretty n else pretty n.

Definition format_en_AU (t : Date) : string :=
  two_digit (day t) +:+ "/" +:+ two_digit (month t) +:+ "/" +:+ pretty (year t).

Definition valid_date (t : Date) : Prop :=
  1 <= day t <= 31 /\ 1 <= month t <= 12 /\ 1000 <= year t <= 9999.

(** [/^\d{2}\/\d{2}\/\d{4}$/]: the display form DD/MM/YYYY. *)
Definition display_re : Matcher :=
  re_digits 2 ;;; re_char "/" ;;; re_digits 2 ;;; re_char "/" ;;; re_digits 4.

(** ** localStorage *)

(** A stored item, by the value its string serialises. *)
Inductive LSItem :=
| LSText (s : string)
| LSVisited (m : gmap string Entry)
| LSNumber (n : Z).

(** [available = false]: every access to the storage throws (blocked
    storage, privacy mode). *)
Record Storage := {
  available : bool;
  items : gmap string LSItem
}.

Module LS_KEYS.
(** The literals of the reset handler that spells them out
    ("must match storage.js"). *)
Definition VISITED : string := "harbour_pools_visited_v2_3".
Definition SELECTION : string := "harbour_pools_selected_v2_3".
Definition STAMPS_PAGE : string := "harbour_pools_stamps_page_v1".
End LS_KEYS.

Definition OWNER_NAME : string := "passportOwnerName".

(** ** State and exceptions *)

Definition M (S A : Type) : Type := S -> Result A * S.

Definition ret {S A} (a : A) : M S A := fun s => (Ok a, s).

Definition bind {S A B} (c : M S A) (k : A -> M S B) : M S B :=
  fun s =>
    match c s with
    | (Ok a, s') => k a s'
    | (Throw e, s') => (Throw e, s')
    end.

Definition throw {S A} (e : JsError) : M S A := fun s => (Throw e, s).

Definition get {S} : M S S := fun s => (Ok s, s).

Definition modify {S} (f : S -> S) : M S unit := fun s => (Ok tt, f s).

(** [try { c } catch { h }] *)
Definition try_catch {S A} (c : M S A) (h : JsError -> M S A) : M S A :=
  fun s =>
    match c s with
    | (Ok a, s') => (Ok a, s')
    | (Throw e, s') => h e s'
    end.

Notation "'let!' x ':=' c 'in' k" := (bind c (fun x => k))
  (at level 10, x name, c at level 100, k at level 200, only parsing).
Notation "c >>> k" := (bind c (fun _ => k))
  (at level 100, k at level 200, right associativity, only parsing).

Definition removeItem (k : string) : M Storage unit :=
  fun ls =>
    if available ls
    then (Ok tt, {| available := true; items := delete k (items ls) |})
    else (Throw SecurityError, ls).

Definition setItem (k : string) (v : LSItem) : M Storage unit :=
  fun ls =>
    if available ls
    then (Ok tt, {| available := true; items := <[k := v]> (items ls) |})
    else (Throw SecurityError, ls).

(** ** The application page (app.js) *)

Inductive ChipLabel :=
| VisitedOn (d : string)
| MarkAsVisited.

Record Row := {
  row_name : string;
  chip_stamped : bool;
  chip_label : ChipLabel;
  data_id : string
}.

(** What the element [poolList] holds. *)
Inductive ListView :=
| NoPoolsLoaded
| EmptyList
| PoolRow (r : Row).

Record Card := {
  card_title : string;
  card_pop : bool;
  card_src : string;
  card_label : string;
  card_date : string
}.

(** The calls whose order matters, logged as they are entered. *)
Inductive Call :=
| CallWriteVisited (m : gmap string Entry)
| CallWriteStampsPage (n : Z)
| CallRenderList
| CallRenderStamps (popId : option string).

Record App := {
  pools : list PoolRecord;
  visited : gmap string Entry;
  selectedIndex : Z;
  currentStampsPage : Z;
  localStorage : Storage;
  poolList : ListView;
  countBadge : string;
  passportGrid : option (list Card);
  calls : list Call
}.

Definition set_visited (m : gmap string Entry) (st : App) : App :=
  {| pools := pools st; visited := m; selectedIndex := selectedIndex st;
     currentStampsPage := currentStampsPage st; localStorage := localStorage st;
     poolList := poolList st; countBadge := countBadge st;
     passportGrid := passportGrid st; calls := calls st |}.

Definition set_currentStampsPage (n : Z) (st : App) : App :=
  {| pools := pools st; visited := visited st; selectedIndex := selectedIndex st;
     currentStampsPage := n; localStorage := localStorage st;
     poolList := poolList st; countBadge := countBadge st;
     passportGrid := passportGrid st; calls := calls st |}.

Definition set_localStorage (ls : Storage) (st : App) : App :=
  {| pools := pools st; visited := visited st; selectedIndex := selectedIndex st;
     currentStampsPage := currentStampsPage st; localStorage := ls;
     poolList := poolList st; countBadge := countBadge st;
     passportGrid := passportGrid st; calls := calls st |}.

Definition set_poolList (v : ListView) (st : App) : App :=
  {| pools := pools st; visited := visited st; selectedIndex := selectedIndex st;
     currentStampsPage := currentStampsPage st; localStorage := localStorage st;
     poolList := v; countBadge := countBadge st;
     passportGrid := passportGrid st; calls := calls st |}.

Definition set_countBadge (s : string) (st : App) : App :=
  {| pools := pools st; visited := visited st; selectedIndex := selectedIndex st;
     currentStampsPage := currentStampsPage st; localStorage := localStorage st;
     poolList := poolList st; countBadge := s;
     passportGrid := passportGrid st; calls := calls st |}.

Definition set_passportGrid (g : option (list Card)) (st : App) : App :=
  {| pools := pools st; visited := visited st; selectedIndex := selectedIndex st;
     currentStampsPage := currentStampsPage st; localStorage := localStorage st;
     poolList := poolList st; countBadge := countBadge st;
     passportGrid := g; calls := calls st |}.

Definition log (c : Call) : M App unit :=
  modify (fun st =>
    {| pools := pools st; visited := visited st; selectedIndex := selectedIndex st;
       currentStampsPage := currentStampsPage st; localStorage := localStorage st;
       poolList := poolList st; countBadge := countBadge st;
       passportGrid := passportGrid st; calls := calls st ++ [c] |}).

(** A storage write whose failure is swallowed: the storage is left as
    the failed attempt left it and the caller goes on. *)
Definition swallow (w : M Storage unit) : M App unit :=
  modify (fun st => set_localStorage (snd (w (localStorage st))) st).

(** Modelled from the spec: [writeVisited] of storage.js, which is not among
    the sources. It stores the whole map under the visited key; a storage
    failure is swallowed. *)
Definition writeVisited (m : gmap string Entry) : M App unit :=
  log (CallWriteVisited m) >>>
  swallow (setItem LS_KEYS.VISITED (LSVisited m)).

(** Modelled from the spec: [writeStampsPage] of storage.js, which is not
    among the sources. It stores the page under the stamps-page key; a
    storage failure is swallowed. *)
Definition writeStampsPage (n : Z) : M App unit :=
  log (CallWriteStampsPage n) >>>
  swallow (setItem LS_KEYS.STAMPS_PAGE (LSNumber n)).

(** Modelled from the spec: [countVisited] of storage.js, which is not among
    the sources: the number of entries of the map. *)
Definition countVisited (m : gmap string Entry) : Z := Z.of_nat (size m).

(** [arr[i]] for a number [i]: [undefined] out of range. *)
Definition js_index {A} (l : list A) (i : Z) : option A :=
  if i <? 0 then None else l !! Z.to_nat i.

(** [arr.slice(start, end)], negative arguments counting from the end. *)
Definition js_slice {A} (l : list A) (start stop : Z) : list A :=
  let len := Z.of_nat (length l) in
  let from := if start <? 0 then Z.max (len + start) 0 else Z.min start len in
  let to := if stop <? 0 then Z.max (len + stop) 0 else Z.min stop len in
  take (Z.to_nat (Z.max (to - from) 0)) (drop (Z.to_nat from) l).

(** [arr.sort(cmp)]: a stable sort; [cmp a b > 0] puts [a] after [b]. For
    a comparator that is consistent every stable sort returns this list. *)
Fixpoint sort_insert {A} (cmp : A -> A -> Z) (x : A) (l : list A) : list A :=
  match l with
  | [] => [x]
  | y :: r => if 0 <? cmp x y then y :: sort_insert cmp x r else x :: y :: r
  end.

Definition array_sort {A} (cmp : A -> A -> Z) (l : list A) : list A :=
  foldr (sort_insert cmp) [] l.

(** The order a comparator stands for: [a] may come before [b]. *)
Definition sorted_by {A} (cmp : A -> A -> Z) (a b : A) : Prop := cmp a b <= 0.

(** [a.localeCompare(b)] on the strings stored as dates (digits, slash,
    hyphen), where the collation order is the order of the code units:
    lexicographic comparison. *)
Definition localeCompare (a b : string) : Z :=
  match String.compare a b with
  | Lt => -1
  | Eq => 0
  | Gt => 1
  end.

Definition updateCount : M App unit :=
  let! st := get in
  modify (set_countBadge
    (pretty (countVisited (visited st)) +:+ " / " +:+
     pretty (Z.of_nat (length (pools st))))).

(** A call of a function that only returns or throws. *)
Definition lift {S A} (r : Result A) : M S A := fun s => (r, s).

(** renderList (app.js, lines 159-204) *)
Definition renderList : M App unit :=
  log CallRenderList >>>
  let! st := get in
  match pools st with
  | [] => modify (set_poolList NoPoolsLoaded)
  | _ :: _ =>
      modify (set_poolList EmptyList) >>>
      match js_index (pools st) (selectedIndex st) with
      | None => throw (TypeError "Cannot read properties of undefined (reading 'id')")
      | Some p =>
          let v := visited st !! id p in
          let stamped := strict_eq_true (opt_done v) in
          let stampDate :=
            match v with
            | Some e => if stamped then JStr (date e) else JNull
            | None => JNull
            end in
          let! label :=
            (if stamped
             then let! d := lift (formatDateAU stampDate) in ret (VisitedOn (ToString d))
             else ret MarkAsVisited) in
          modify (set_poolList (PoolRow
            {| row_name := name p; chip_stamped := stamped;
               chip_label := label; data_id := id p |})) >>>
          updateCount
      end
  end.

(** [p.stamp || `stamps/${p.id}.png`] *)
Definition getStampSrc (p : PoolRecord) : string :=
  match stamp p with
  | Some s => if String.eqb s "" then "stamps/" +:+ id p +:+ ".png" else s
  | None => "stamps/" +:+ id p +:+ ".png"
  end.

Definition stampsPerPage : Z := 3.

(** The test of the filter and of the toggle: [visited[k]?.done]. *)
Definition isDone (m : gmap string Entry) (k : string) : bool :=
  truthy (opt_done (m !! k)).

(** [visited[p.id].date] inside the comparator; the filter has kept only
    pools whose entry exists. *)
Definition date_of (m : gmap string Entry) (p : PoolRecord) : string :=
  match m !! id p with
  | Some e => date e
  | None => ""
  end.

Definition visitedPools (ps : list PoolRecord) (m : gmap string Entry) : list PoolRecord :=
  array_sort (fun a b => localeCompare (date_of m a) (date_of m b))
    (List.filter (fun p => isDone m (id p)) ps).

(** [Math.max(1, Math.ceil(n / stampsPerPage))] *)
Definition totalPages (n : nat) : Z :=
  Z.max 1 (Qceiling (inject_Z (Z.of_nat n) / inject_Z stampsPerPage)).

Definition clampPage (page : Z) (n : nat) : Z :=
  Z.min page (totalPages n - 1).

Definition pagePools (vp : list PoolRecord) (page : Z) : list PoolRecord :=
  js_slice vp (page * stampsPerPage) (page * stampsPerPage + stampsPerPage).

Definition appendCard (c : Card) : M App unit :=
  modify (fun st =>
    set_passportGrid
      (match passportGrid st with Some g => Some (g ++ [c]) | None => None end) st).

Definition renderCard (popId : option string) (p : PoolRecord) : M App unit :=
  let! st := get in
  match visited st !! id p with
  | None => throw (TypeError "Cannot read properties of undefined (reading 'date')")
  | Some v =>
      let! d := lift (formatDateAU (JStr (date v))) in
      appendCard
        {| card_title := name p;
           card_pop := bool_decide (popId = Some (id p));
           card_src := getStampSrc p;
           card_label := match suburb p with
                         | Some s => if String.eqb s "" then "Stamped" else s
                         | None => "Stamped"
                         end;
           card_date := ToString d |}
  end.

Fixpoint forEach {S A} (f : A -> M S unit) (l : list A) : M S unit :=
  match l with
  | [] => ret tt
  | x :: r => f x >>> forEach f r
  end.

(** renderStamps (app.js, lines 259-300) *)
Definition renderStamps (popId : option string) : M App unit :=
  log (CallRenderStamps popId) >>>
  let! st := get in
  match passportGrid st with
  | None => ret tt
  | Some _ =>
      let vp := visitedPools (pools st) (visited st) in
      let page := clampPage (currentStampsPage st) (length vp) in
      modify (set_currentStampsPage page) >>>
      writeStampsPage page >>>
      modify (set_passportGrid (Some [])) >>>
      forEach (renderCard popId) (pagePools vp page)
  end.

(** The branch of toggleStamp on [visited[poolId]?.done]: delete the
    entry, or set a fresh one. *)
Definition toggleVisited (poolId today : string) (m : gmap string Entry)
  : gmap string Entry :=
  if isDone m poolId then delete poolId m
  else <[poolId := {| done := JBool true; date := today |}]> m.

(** toggleStamp (app.js, lines 210-223); [now] is the date of the clock. *)
Definition toggleStamp (poolId : string) (animate : bool) (now : Date) : M App unit :=
  let today := format_en_AU now in
  modify (fun st => set_visited (toggleVisited poolId today (visited st)) st) >>>
  let! st := get in
  writeVisited (visited st) >>>
  renderList >>>
  renderStamps (if animate then Some poolId else None).

(** The pool [openInNativeMaps] opens: [pools[selectedIndex] || pools[0]];
    [None] when it returns without opening anything. *)
Definition openInNativeMaps (st : App) : option PoolRecord :=
  match js_index (pools st) (selectedIndex st) with
  | Some p => Some p
  | None => js_index (pools st) 0
  end.

(** Calls of toggleStamp, one event handler after the other; an exception
    ends its handler and the page goes on with the state it left. *)
Record Toggle := {
  toggle_id : string;
  toggle_animate : bool;
  toggle_now : Date
}.

Definition run_toggles (cs : list Toggle) (st : App) : App :=
  foldl (fun s c =>
           snd (toggleStamp (toggle_id c) (toggle_animate c) (toggle_now c) s))
    st cs.

Definition toggles_of (k : string) (cs : list Toggle) : nat :=
  length (List.filter (fun c => bool_decide (toggle_id c = k)) cs).

(** A stored date string as [formatDateAU] shows it. *)
Definition display (s : string) : string :=
  match formatDateAU (JStr s) with
  | Ok d => ToString d
  | Throw _ => "undefined"
  end.

(** The stamp card of a pool [p] that has an entry in [m]. *)
Definition card_of (popId : option string) (m : gmap string Entry) (p : PoolRecord) : Card :=
  {| card_title := name p;
     card_pop := bool_decide (popId = Some (id p));
     card_src := getStampSrc p;
     card_label := match suburb p with
                   | Some s => if String.eqb s "" then "Stamped" else s
                   | None => "Stamped"
                   end;
     card_date := display (date_of m p) |}.

(** ** The overview page (overview.js) *)

Definition createOverviewIcon (isVisited : bool) : string :=
  if isVisited then "overview-marker overview-marker-visited"
  else "overview-marker overview-marker-notvisited".

Definition overviewIsVisited (visitedMap : gmap string Entry) (pool : PoolRecord) : bool :=
  negb (negb (truthy (and_done (visitedMap !! id pool)))).

(** One marker per pool, with the class of its icon. *)
Definition overviewMarkers (ps : list PoolRecord) (visitedMap : gmap string Entry)
  : list (PoolRecord * string) :=
  map (fun pool => (pool, createOverviewIcon (overviewIsVisited visitedMap pool))) ps.

Inductive PageEffect :=
| Confirm
| Alert (msg : string)
| Reload.

(** The overview page as the reset handler sees it: the storage and what
    the user has been shown so far. *)
Record Overview := {
  ov_storage : Storage;
  ov_effects : list PageEffect
}.

Definition onStorage (c : M Storage unit) : M Overview unit :=
  fun pg =>
    let '(r, ls) := c (ov_storage pg) in
    (r, {| ov_storage := ls; ov_effects := ov_effects pg |}).

Definition effect (e : PageEffect) : M Overview unit :=
  modify (fun pg =>
    {| ov_storage := ov_storage pg; ov_effects := ov_effects pg ++ [e] |}).

(** The click handler of the reset button (overview.js, lines 104-128; the
    two other revisions of the file carry the same handler). [ok] is the
    answer to the confirmation prompt; the [return] inside [catch] is the
    [false] that skips the reload. *)
Definition resetProfileClick (ok : bool) : M Overview unit :=
  effect Confirm >>>
  if negb ok then ret tt
  else
    let! removed :=
      try_catch
        (onStorage (removeItem OWNER_NAME) >>>
         onStorage (removeItem LS_KEYS.VISITED) >>>
         onStorage (removeItem LS_KEYS.SELECTION) >>>
         onStorage (removeItem LS_KEYS.STAMPS_PAGE) >>>
         ret true)
        (fun _ =>
           effect (Alert "Could not reset (storage not available).") >>>
           ret false) in
    if removed then effect Reload else ret tt.

(** Key presence, as a boolean. *)
Definition hasEntry (m : gmap string Entry) (k : string) : bool :=
  bool_decide (is_Some (m !! k)).

(** ** Sample data *)

Definition woolwich : PoolRecord :=
  {| id := "woolwich"; name := "Woolwich Baths"; suburb := Some "Woolwich"; stamp := None |}.

Definition balmain : PoolRecord :=
  {| id := "balmain"; name := "Dawn Fraser Baths"; suburb := Some "Balmain"; stamp := None |}.

Definition open_storage : Storage := {| available := true; items := ∅ |}.

(** The page just after a first load: nothing visited, the first pool
    selected, the first stamps page. *)
Definition fresh_app : App :=
  {| pools := [woolwich; balmain]; visited := ∅; selectedIndex := 0;
     currentStampsPage := 0; localStorage := open_storage;
     poolList := EmptyList; countBadge := ""; passportGrid := Some [];
     calls := [] |}.

Definition dec16 : Date := {| day := 16; month := 12; year := 2025 |}.

(** Woolwich, Balmain, Woolwich, Woolwich: three toggles of Woolwich. *)
Definition four_toggles : list Toggle :=
  [ {| toggle_id := "woolwich"; toggle_animate := true; toggle_now := dec16 |};
    {| toggle_id := "balmain"; toggle_animate := true; toggle_now := dec16 |};
    {| toggle_id := "woolwich"; toggle_animate := true; toggle_now := dec16 |};
    {| toggle_id := "woolwich"; toggle_animate := false; toggle_now := dec16 |} ].


(** A selection left over from a longer catalog: index 2 of two pools. *)
Definition shrunk_catalog_app : App :=
  {| pools := [woolwich; balmain]; visited := ∅; selectedIndex := 2;
     currentStampsPage := 0; localStorage := open_storage;
     poolList := EmptyList; countBadge := ""; passportGrid := Some [];
     calls := [] |}.

(** The four keys the reset handler removes. *)
Definition reset_keys : list string :=
  [OWNER_NAME; LS_KEYS.VISITED; LS_KEYS.SELECTION; LS_KEYS.STAMPS_PAGE].

(** The state in which renderStamps starts appending cards: the page is
    clamped and written, the grid is emptied. *)
Definition stamps_prelude (popId : option string) (st : App) : App :=
  let page := clampPage (currentStampsPage st)
                (length (visitedPools (pools st) (visited st))) in
  snd ((log (CallRenderStamps popId) >>>
        modify (set_currentStampsPage page) >>>
        writeStampsPage page >>>
        modify (set_passportGrid (Some []))) st).

(** Lexicographic order on strings, by the code of the characters. *)
Inductive lex_le : string -> string -> Prop :=
| lex_le_empty s : lex_le "" s
| lex_le_less c1 c2 s1 s2 :
    (nat_of_ascii c1 < nat_of_ascii c2)%nat -> lex_le (String c1 s1) (String c2 s2)
| lex_le_same c s1 s2 :
    lex_le s1 s2 -> lex_le (String c s1) (String c s2).

(** Ascending order of the stored date strings. *)
Definition by_date (m : gmap string Entry) (a b : PoolRecord) : Prop :=
  lex_le (date_of m a) (date_of m b).



(** Both pools visited, Balmain on the earlier date string. *)
Definition two_visited_app : App :=
  set_visited
    (<["woolwich" := {| done := JBool true; date := "16/12/2025" |}]>
       (<["balmain" := {| done := JBool true; date := "05/01/2026" |}]> ∅))
    fresh_app.

(** Woolwich selected, its visit stored with a legacy ISO date. *)
Definition legacy_app : App :=
  set_visited (<["woolwich" := {| done := JBool true; date := "2025-12-16" |}]> ∅)
    fresh_app.

(** [c] leaves the component [proj] of the state as it found it, whether
    it returns or throws. *)
Definition preserves {A X} (proj : App -> X) (c : M App A) : Prop :=
  forall st, proj (snd (c st)) = proj st.

(** The class of the marker of a visited pool. *)
Definition VISITED_MARKER : string := "overview-marker overview-marker-visited".

(** * Properties *)

(** ** Dates *)

Lemma is_digit_not_hyphen c : is_digit c = true -> Ascii.eqb c "-" = false.
Proof.
  destruct c as [[] [] [] [] [] [] [] []]; vm_compute; congruence.
Qed.

Ltac peel_string H :=
  repeat match type of H with
  | context [match ?s with EmptyString => _ | String _ _ => _ end] =>
      destruct s; simpl in H; try discriminate H
  | context [if is_digit ?c then _ else _] =>
      let E := fresh "Hd" in
      destruct (is_digit c) eqn:E; simpl in H; try discriminate H
  | context [if Ascii.eqb ?c ?a then _ else _] =>
      destruct (Ascii.eqb_spec c a); simpl in H; try discriminate H; subst
  end.

Lemma iso_re_sound s : re_test iso_re s = true -> matches_iso s.
Proof.
  intros H. unfold re_test, iso_re, re_seq, re_digits, re_char in H.
  peel_string H.
  match goal with
  | |- matches_iso (String ?a (String ?b (String ?c (String ?d
         (String _ (String ?e (String ?f (String _ (String ?g (String ?h _)))))))))) =>
      exists (String a (String b (String c (String d "")))),
             (String e (String f "")), (String g (String h ""))
  end.
  split; [|reflexivity].
  unfold LegacyISO, all_digits; simpl.
  repeat split; repeat constructor; assumption.
Qed.

Lemma LegacyISO_inv y m d :
  LegacyISO y m d ->
  exists a b c e f g h i,
    y = String a (String b (String c (String e ""))) /\
    m = String f (String g "") /\ d = String h (String i "") /\
    Forall (fun x => is_digit x = true) [a; b; c; e; f; g; h; i].
Proof.
  intros (Hy & Hm & Hd & Dy & Dm & Dd).
  destruct y as [|a [|b [|c [|e [|? ?]]]]]; simpl in Hy; try discriminate Hy.
  destruct m as [|f [|g [|? ?]]]; simpl in Hm; try discriminate Hm.
  destruct d as [|h [|i [|? ?]]]; simpl in Hd; try discriminate Hd.
  exists a, b, c, e, f, g, h, i. repeat split.
  unfold all_digits in *; simpl in *.
  repeat match goal with
  | H : Forall _ (_ :: _) |- _ => inversion H; clear H; subst
  end.
  repeat constructor; assumption.
Qed.

Lemma iso_re_complete s : matches_iso s -> re_test iso_re s = true.
Proof.
  intros (y & m & d & Hiso & ->).
  destruct (LegacyISO_inv _ _ _ Hiso)
    as (a & b & c & e & f & g & h & i & -> & -> & -> & HF).
  repeat match goal with
  | H : Forall _ (_ :: _) |- _ => inversion H; clear H; subst
  end.
  unfold re_test, iso_re, re_seq, iso_string.
  cbv beta iota delta [String.append]; unfold re_char; simpl.
  repeat (match goal with
          | H : is_digit _ = true |- _ => rewrite H; clear H
          end; simpl).
  reflexivity.
Qed.

Lemma iso_re_spec s : re_test iso_re s = true <-> matches_iso s.
Proof. split; [apply iso_re_sound | apply iso_re_complete]. Qed.

Lemma formatDateAU_iso y m d :
  LegacyISO y m d ->
  formatDateAU (JStr (iso_string y m d)) = Ok (JStr (display_string y m d)).
Proof.
  intros Hiso.
  assert (Hre : re_test iso_re (iso_string y m d) = true).
  { apply iso_re_complete. exists y, m, d. auto. }
  unfold formatDateAU. simpl ToString.
  replace (negb (truthy (JStr (iso_string y m d)))) with false
    by (destruct y; [destruct Hiso as [Hy _]; discriminate Hy | reflexivity]).
  rewrite Hre.
  destruct (LegacyISO_inv _ _ _ Hiso)
    as (a & b & c & e & f & g & h & i & -> & -> & -> & HF).
  repeat match goal with
  | H : Forall _ (_ :: _) |- _ => inversion H; clear H; subst
  end.
  repeat match goal with
  | H : is_digit _ = true |- _ => apply is_digit_not_hyphen in H
  end.
  unfold iso_string, display_string, destructured.
  cbv beta iota delta [String.append]; simpl.
  repeat (match goal with
          | H : Ascii.eqb _ _ = false |- _ => rewrite H; clear H
          end; simpl).
  cbv beta iota delta [String.append]; simpl.
  reflexivity.
Qed.

Lemma formatDateAU_other s :
  ~ matches_iso s -> formatDateAU (JStr s) = Ok (JStr s).
Proof.
  intros Hn. unfold formatDateAU. simpl.
  destruct (String.eqb s "") eqn:E; simpl.
  - apply String.eqb_eq in E. subst. reflexivity.
  - destruct (re_test iso_re s) eqn:R; [|reflexivity].
    exfalso. apply Hn, iso_re_sound, R.
Qed.

(** On a string [formatDateAU] never throws. *)
Lemma formatDateAU_string s : exists r, formatDateAU (JStr s) = Ok (JStr r).
Proof.
  unfold formatDateAU. simpl.
  destruct (negb (String.eqb s "")); simpl; [|eauto].
  destruct (re_test iso_re s); eauto.
Qed.

Lemma display_ok s : formatDateAU (JStr s) = Ok (JStr (display s)).
Proof.
  unfold display. destruct (formatDateAU_string s) as [r ->]. reflexivity.
Qed.

(** ** Frame rules of the monad *)

Section Frame.
Context {X : Type} (proj : App -> X).

Lemma preserves_ret {A} (a : A) : preserves proj (ret a).
Proof. intros st. reflexivity. Qed.

Lemma preserves_throw {A} e : preserves proj (@throw App A e).
Proof. intros st. reflexivity. Qed.

Lemma preserves_get : preserves proj get.
Proof. intros st. reflexivity. Qed.

Lemma preserves_lift {A} (r : Result A) : preserves proj (lift r).
Proof. intros st. reflexivity. Qed.

Lemma preserves_modify f :
  (forall st, proj (f st) = proj st) -> preserves proj (modify f).
Proof. intros H st. apply H. Qed.

Lemma preserves_bind {A B} (c : M App A) (k : A -> M App B) :
  preserves proj c -> (forall a, preserves proj (k a)) ->
  preserves proj (bind c k).
Proof.
  intros Hc Hk st. unfold bind.
  specialize (Hc st). destruct (c st) as [[a|e] s']; simpl in *.
  - rewrite Hk. exact Hc.
  - exact Hc.
Qed.

Lemma preserves_forEach {A} (f : A -> M App unit) l :
  (forall a, preserves proj (f a)) -> preserves proj (forEach f l).
Proof.
  intros Hf. induction l as [|x l IH]; simpl.
  - apply preserves_ret.
  - apply preserves_bind; auto.
Qed.
End Frame.

Ltac frame_step :=
  lazymatch goal with
  | |- preserves _ (bind _ _) => apply preserves_bind; [|intros ?]
  | |- preserves _ (ret _) => apply preserves_ret
  | |- preserves _ (throw _) => apply preserves_throw
  | |- preserves _ get => apply preserves_get
  | |- preserves _ (lift _) => apply preserves_lift
  | |- preserves _ (modify _) => apply preserves_modify; intros ?; reflexivity
  | |- preserves _ (forEach _ _) => apply preserves_forEach; intros ?
  | |- preserves _ (match ?x with _ => _ end) => destruct x
  end.

Ltac frame :=
  unfold updateCount, writeVisited, writeStampsPage, renderCard, appendCard,
    swallow, log;
  cbv zeta; repeat frame_step.

Lemma renderList_visited : preserves visited renderList.
Proof. unfold renderList. frame. Qed.

Lemma renderList_pools : preserves pools renderList.
Proof. unfold renderList. frame. Qed.

Lemma renderList_localStorage : preserves localStorage renderList.
Proof. unfold renderList. frame. Qed.

Lemma renderList_passportGrid : preserves passportGrid renderList.
Proof. unfold renderList. frame. Qed.

Lemma renderStamps_visited popId : preserves visited (renderStamps popId).
Proof. unfold renderStamps. frame. Qed.

Lemma renderStamps_pools popId : preserves pools (renderStamps popId).
Proof. unfold renderStamps. frame. Qed.

Lemma writeVisited_visited m : preserves visited (writeVisited m).
Proof. frame. Qed.

(** A swallowed write to another key leaves the item under [k] alone. *)
Lemma swallow_setItem_other k k' v :
  k <> k' ->
  preserves (fun st => items (localStorage st) !! k) (swallow (setItem k' v)).
Proof.
  intros Hne st. unfold swallow, modify, setItem. simpl.
  destruct (available (localStorage st)); simpl; [|reflexivity].
  apply lookup_insert_ne. congruence.
Qed.

Lemma renderStamps_stored_visited popId :
  preserves (fun st => items (localStorage st) !! LS_KEYS.VISITED)
    (renderStamps popId).
Proof.
  unfold renderStamps, writeStampsPage.
  repeat first
    [ apply swallow_setItem_other; discriminate
    | progress (unfold renderCard, appendCard, log; cbv zeta)
    | frame_step ].
Qed.

Lemma bind_modify {A} f (k : unit -> M App A) st :
  bind (modify f) k st = k tt (f st).
Proof. reflexivity. Qed.

Lemma bind_get {A} (k : App -> M App A) st : bind get k st = k st st.
Proof. reflexivity. Qed.

(** What is left of [p >>> q] in a component that [q] preserves. *)
Lemma preserves_bind_snd {A B X} (proj : App -> X) (c : M App A)
    (k : A -> M App B) st :
  (forall a, preserves proj (k a)) ->
  proj (snd (bind c k st)) = proj (snd (c st)).
Proof.
  intros Hk. unfold bind. destruct (c st) as [[a|e] s']; simpl; [apply Hk | reflexivity].
Qed.

Lemma writeVisited_ok m st : fst (writeVisited m st) = Ok tt.
Proof. reflexivity. Qed.

Lemma writeVisited_calls m st :
  calls (snd (writeVisited m st)) = calls st ++ [CallWriteVisited m].
Proof. reflexivity. Qed.

Lemma writeVisited_stored m st :
  available (localStorage st) = true ->
  items (localStorage (snd (writeVisited m st))) !! LS_KEYS.VISITED
  = Some (LSVisited m).
Proof.
  intros Hav. unfold writeVisited, swallow, log, bind, modify, setItem. simpl.
  rewrite Hav. simpl. apply lookup_insert_eq.
Qed.

Lemma renderList_calls st :
  calls (snd (renderList st)) = calls st ++ [CallRenderList].
Proof.
  unfold renderList.
  rewrite (preserves_bind_snd calls); [reflexivity|].
  intros _. frame.
Qed.

Lemma renderStamps_calls popId st :
  exists rest,
    calls (snd (renderStamps popId st)) = calls st ++ CallRenderStamps popId :: rest.
Proof.
  unfold renderStamps. unfold bind at 1. simpl.
  rewrite bind_get. simpl.
  destruct (passportGrid st) as [g|]; simpl.
  - exists [CallWriteStampsPage
      (clampPage (currentStampsPage st)
         (length (visitedPools (pools st) (visited st))))].
    rewrite bind_modify. unfold writeStampsPage.
    unfold bind at 1. unfold bind at 1. simpl.
    rewrite (preserves_bind_snd calls).
    + simpl. rewrite <- app_assoc. reflexivity.
    + intros _. frame.
  - exists []. reflexivity.
Qed.

(** ** The clock *)

Lemma pretty_N_char_digit x : is_digit (pretty_N_char x) = true.
Proof. unfold pretty_N_char. repeat case_match; reflexivity. Qed.

Lemma two_digit_shape n :
  0 <= n <= 99 ->
  exists a b, two_digit n = String a (String b "") /\
              is_digit a = true /\ is_digit b = true.
Proof.
  intros Hn. unfold two_digit.
  destruct n as [|p|p]; [vm_compute; eauto | | lia].
  change (pretty (Z.pos p)) with (pretty_N_go (N.pos p) "").
  rewrite pretty_N_go_step by lia.
  destruct (Z.pos p <? 10) eqn:E.
  - apply Z.ltb_lt in E.
    rewrite (N.div_small (N.pos p) 10) by lia.
    rewrite pretty_N_go_0.
    eexists _, _. split; [reflexivity|].
    split; [reflexivity | apply pretty_N_char_digit].
  - apply Z.ltb_ge in E.
    rewrite pretty_N_go_step by (apply N.div_str_pos; lia).
    assert ((N.pos p / 10) / 10 = 0)%N as ->
      by (rewrite N.Div0.div_div; apply N.div_small; lia).
    rewrite pretty_N_go_0.
    eexists _, _. split; [reflexivity|].
    split; apply pretty_N_char_digit.
Qed.

Lemma four_digit_shape y :
  1000 <= y <= 9999 ->
  exists a b c d,
    pretty y = String a (String b (String c (String d ""))) /\
    Forall (fun x => is_digit x = true) [a; b; c; d].
Proof.
  intros Hy. destruct y as [|p|p]; try lia.
  change (pretty (Z.pos p)) with (pretty_N_go (N.pos p) "").
  rewrite pretty_N_go_step by lia.
  rewrite pretty_N_go_step by (apply N.div_str_pos; lia).
  assert (0 < (N.pos p / 10) / 10)%N.
  { rewrite N.Div0.div_div. apply N.div_str_pos; lia. }
  rewrite pretty_N_go_step by assumption.
  assert (0 < ((N.pos p / 10) / 10) / 10)%N.
  { rewrite !N.Div0.div_div. apply N.div_str_pos; lia. }
  rewrite pretty_N_go_step by assumption.
  assert ((((N.pos p / 10) / 10) / 10) / 10 = 0)%N as ->.
  { rewrite !N.Div0.div_div. apply N.div_small. lia. }
  rewrite pretty_N_go_0.
  eexists _, _, _, _. split; [reflexivity|].
  repeat constructor; apply pretty_N_char_digit.
Qed.

(** For a date of the calendar the clock string has the display form. *)
Lemma format_en_AU_display now :
  valid_date now -> re_test display_re (format_en_AU now) = true.
Proof.
  intros (Hd & Hm & Hy). unfold format_en_AU.
  destruct (two_digit_shape (day now)) as (a & b & -> & Ha & Hb); [lia|].
  destruct (two_digit_shape (month now)) as (c & d & -> & Hc & Hd'); [lia|].
  destruct (four_digit_shape (year now)) as (e & f & g & h & -> & HF); [lia|].
  repeat match goal with
  | H : Forall _ (_ :: _) |- _ => inversion H; clear H; subst
  end.
  unfold re_test, display_re, re_seq.
  cbv beta iota delta [String.append]; unfold re_char; simpl.
  repeat (match goal with
          | H : is_digit _ = true |- _ => rewrite H; clear H
          end; simpl).
  reflexivity.
Qed.

(** ** The visited map *)

Lemma VisitedMap_ok_empty : VisitedMap_ok ∅.
Proof. intros k e H. rewrite lookup_empty in H. discriminate. Qed.

Lemma isDone_ok m k : VisitedMap_ok m -> isDone m k = hasEntry m k.
Proof.
  intros Hok. unfold isDone, hasEntry, opt_done.
  destruct (m !! k) as [e|] eqn:E.
  - rewrite (Hok _ _ E). reflexivity.
  - reflexivity.
Qed.

Lemma toggleVisited_ok poolId today m :
  VisitedMap_ok m -> VisitedMap_ok (toggleVisited poolId today m).
Proof.
  intros Hok k e. unfold toggleVisited.
  destruct (isDone m poolId).
  - rewrite lookup_delete. case_decide; [discriminate|]. apply Hok.
  - rewrite lookup_insert. case_decide.
    + intros [= <-]. reflexivity.
    + apply Hok.
Qed.

Lemma toggleVisited_other poolId today m k :
  poolId <> k -> toggleVisited poolId today m !! k = m !! k.
Proof.
  intros Hne. unfold toggleVisited. destruct (isDone m poolId).
  - apply lookup_delete_ne, Hne.
  - apply lookup_insert_ne, Hne.
Qed.

Lemma toggleVisited_hasEntry poolId today m k :
  VisitedMap_ok m ->
  hasEntry (toggleVisited poolId today m) k
  = if bool_decide (poolId = k) then negb (hasEntry m k) else hasEntry m k.
Proof.
  intros Hok. case_bool_decide as Hk.
  - subst k. unfold toggleVisited. rewrite (isDone_ok _ _ Hok).
    unfold hasEntry at 2 3. case_bool_decide as Hs; simpl; unfold hasEntry.
    + rewrite lookup_delete_eq. apply bool_decide_eq_false. intros [? ?]. discriminate.
    + rewrite lookup_insert_eq. apply bool_decide_eq_true. eauto.
  - unfold hasEntry. rewrite toggleVisited_other by assumption. reflexivity.
Qed.

Lemma toggleStamp_visited poolId animate now st :
  visited (snd (toggleStamp poolId animate now st))
  = toggleVisited poolId (format_en_AU now) (visited st).
Proof.
  unfold toggleStamp. cbv zeta. rewrite bind_modify, bind_get.
  rewrite (preserves_bind_snd visited).
  - rewrite writeVisited_visited. reflexivity.
  - intros _. apply preserves_bind; [apply renderList_visited|].
    intros _. apply renderStamps_visited.
Qed.

Lemma run_toggles_ok cs st :
  VisitedMap_ok (visited st) -> VisitedMap_ok (visited (run_toggles cs st)).
Proof.
  revert st. induction cs as [|c cs IH]; intros st Hok; simpl; [assumption|].
  apply IH. rewrite toggleStamp_visited. apply toggleVisited_ok, Hok.
Qed.

Lemma run_toggles_hasEntry cs st k :
  VisitedMap_ok (visited st) ->
  hasEntry (visited (run_toggles cs st)) k
  = xorb (hasEntry (visited st) k) (Nat.odd (toggles_of k cs)).
Proof.
  revert st. induction cs as [|c cs IH]; intros st Hok; simpl.
  - unfold toggles_of. simpl. rewrite xorb_false_r. reflexivity.
  - rewrite IH by (rewrite toggleStamp_visited; apply toggleVisited_ok, Hok).
    rewrite toggleStamp_visited, toggleVisited_hasEntry by assumption.
    unfold toggles_of. simpl.
    case_bool_decide; simpl; [|reflexivity].
    rewrite Nat.odd_succ, <- Nat.negb_odd.
    destruct (hasEntry (visited st) k), (Nat.odd _); reflexivity.
Qed.

Lemma renderList_stored_visited :
  preserves (fun st => items (localStorage st) !! LS_KEYS.VISITED) renderList.
Proof. unfold renderList. frame. Qed.

Lemma toggleStamp_stored poolId animate now st :
  available (localStorage st) = true ->
  items (localStorage (snd (toggleStamp poolId animate now st))) !! LS_KEYS.VISITED
  = Some (LSVisited (toggleVisited poolId (format_en_AU now) (visited st))).
Proof.
  intros Hav. unfold toggleStamp. cbv zeta. rewrite bind_modify, bind_get.
  rewrite (preserves_bind_snd (fun st => items (localStorage st) !! LS_KEYS.VISITED)).
  - apply writeVisited_stored. exact Hav.
  - intros _. apply preserves_bind; [apply renderList_stored_visited|].
    intros _. apply renderStamps_stored_visited.
Qed.

Lemma toggleStamp_calls poolId animate now st :
  exists rest,
    calls (snd (toggleStamp poolId animate now st))
    = calls st ++
      CallWriteVisited (toggleVisited poolId (format_en_AU now) (visited st))
      :: CallRenderList :: rest.
Proof.
  unfold toggleStamp. cbv zeta. rewrite bind_modify, bind_get.
  set (st1 := set_visited _ st).
  unfold bind at 1.
  pose proof (writeVisited_ok (visited st1) st1) as H1.
  pose proof (writeVisited_calls (visited st1) st1) as H2.
  destruct (writeVisited (visited st1) st1) as [r st2].
  simpl in H1, H2. subst r.
  change (calls st1) with (calls st) in H2.
  change (visited st1)
    with (toggleVisited poolId (format_en_AU now) (visited st)) in H2.
  unfold bind. pose proof (renderList_calls st2) as H3.
  destruct (renderList st2) as [[[]|e] st3]; simpl in *.
  - destruct (renderStamps_calls (if animate then Some poolId else None) st3)
      as [rest ->].
    exists (CallRenderStamps (if animate then Some poolId else None) :: rest).
    rewrite H3, H2, <- !app_assoc. reflexivity.
  - exists []. rewrite H3, H2, <- !app_assoc. reflexivity.
Qed.

Lemma isDone_hasVisitedEntry m k : isDone m k = true <-> hasVisitedEntry m k.
Proof.
  unfold isDone, hasVisitedEntry, VisitedEntry, opt_done.
  destruct (m !! k) as [e|]; simpl.
  - split; [eauto|]. intros (e' & [= <-] & H). exact H.
  - split; [discriminate|]. intros (e' & [=] & _).
Qed.

(** On a map of the data model the visited ids are the keys of the map. *)
Lemma hasVisitedEntry_ok m k :
  VisitedMap_ok m -> (hasVisitedEntry m k <-> is_Some (m !! k)).
Proof.
  intros Hok. split.
  - intros (e & He & _). eauto.
  - intros [e He]. exists e. split; [exact He | eapply Hok, He].
Qed.

(** C1. Starting from an empty visited map, after any sequence of calls
    of toggleStamp a pool id has a VisitedEntry (it is a key of the map,
    and its entry records a visit) exactly when the number of toggles
    applied to that id is odd. *)
Theorem toggle_parity (st : App) (cs : list Toggle) (k : string) :
  visited st = ∅ ->
  (hasVisitedEntry (visited (run_toggles cs st)) k <-> Nat.odd (toggles_of k cs) = true) /\
  (is_Some (visited (run_toggles cs st) !! k) <-> Nat.odd (toggles_of k cs) = true).
Proof.
  intros Hempty.
  assert (Hok : VisitedMap_ok (visited st))
    by (rewrite Hempty; apply VisitedMap_ok_empty).
  pose proof (run_toggles_hasEntry cs st k Hok) as H.
  assert (H0 : hasEntry (visited st) k = false).
  { rewrite Hempty. unfold hasEntry. rewrite lookup_empty.
    apply bool_decide_eq_false. intros [? ?]. discriminate. }
  rewrite H0 in H. simpl in H.
  assert (Hkey : is_Some (visited (run_toggles cs st) !! k)
                 <-> Nat.odd (toggles_of k cs) = true).
  { rewrite <- H. unfold hasEntry. symmetry. apply bool_decide_eq_true. }
  split; [|exact Hkey].
  rewrite hasVisitedEntry_ok by (apply run_toggles_ok, Hok). exact Hkey.
Qed.

Lemma toggle_parity_witness :
  visited fresh_app = ∅ /\
  hasVisitedEntry (visited (run_toggles four_toggles fresh_app)) "woolwich".
Proof.
  split; [reflexivity|].
  apply (proj1 (toggle_parity fresh_app four_toggles "woolwich" eq_refl)).
  reflexivity.
Defined.

(** C2. toggleStamp deletes the VisitedEntry of the pool when there is
    one and otherwise sets [{ done: true, date: today }], today being in
    the display form DD/MM/YYYY; in both cases the call of writeVisited
    with the whole updated map comes next, before renderList and
    everything after it, and an available storage then holds that map. *)
Theorem toggleStamp_effect (st : App) (poolId : string) (animate : bool) (now : Date) :
  valid_date now ->
  let st' := snd (toggleStamp poolId animate now st) in
  let today := format_en_AU now in
  (hasVisitedEntry (visited st) poolId -> visited st' = delete poolId (visited st)) /\
  (~ hasVisitedEntry (visited st) poolId ->
   visited st' = <[poolId := {| done := JBool true; date := today |}]> (visited st)) /\
  re_test display_re today = true /\
  (exists rest,
     calls st' = calls st ++ CallWriteVisited (visited st') :: CallRenderList :: rest) /\
  (available (localStorage st) = true ->
   items (localStorage st') !! LS_KEYS.VISITED = Some (LSVisited (visited st'))).
Proof.
  intros Hnow st' today. subst st' today.
  rewrite toggleStamp_visited.
  repeat split.
  - intros Hs. apply isDone_hasVisitedEntry in Hs.
    unfold toggleVisited. rewrite Hs. reflexivity.
  - intros Hn. unfold toggleVisited.
    destruct (isDone (visited st) poolId) eqn:E; [|reflexivity].
    exfalso. apply Hn, isDone_hasVisitedEntry, E.
  - apply format_en_AU_display, Hnow.
  - apply toggleStamp_calls.
  - apply toggleStamp_stored.
Qed.

Lemma toggleStamp_effect_witness :
  valid_date dec16 /\
  visited (snd (toggleStamp "woolwich" true dec16 fresh_app))
  = <["woolwich" := {| done := JBool true; date := "16/12/2025" |}]> ∅.
Proof.
  assert (Hd : valid_date dec16) by (unfold valid_date; simpl; lia).
  split; [exact Hd|].
  apply (toggleStamp_effect fresh_app "woolwich" true dec16 Hd).
  intros (e & He & _). discriminate He.
Defined.

(** C8. toggleStamp on one pool id leaves the entry of every other pool
    id as it was, in memory and in the map handed to the storage. *)
Theorem toggleStamp_frame (st : App) (X Y : string) (animate : bool) (now : Date) :
  X <> Y ->
  let st' := snd (toggleStamp X animate now st) in
  visited st' !! Y = visited st !! Y /\
  (available (localStorage st) = true ->
   exists m, items (localStorage st') !! LS_KEYS.VISITED = Some (LSVisited m) /\
             m !! Y = visited st !! Y).
Proof.
  intros Hne st'. subst st'. rewrite toggleStamp_visited. split.
  - apply toggleVisited_other, Hne.
  - intros Hav. eexists. split; [apply toggleStamp_stored, Hav|].
    apply toggleVisited_other, Hne.
Qed.

Lemma toggleStamp_frame_witness :
  "woolwich" <> "balmain" /\
  visited (snd (toggleStamp "woolwich" true dec16 fresh_app)) !! "balmain"
  = visited fresh_app !! "balmain".
Proof.
  split; [discriminate|].
  apply (toggleStamp_frame fresh_app "woolwich" "balmain" true dec16).
  discriminate.
Defined.

(** C10. formatDateAU returns the empty string for an absent or empty
    input ([undefined], [null], the empty string) and returns unchanged
    every string that is not four digits, hyphen, two digits, hyphen, two
    digits. *)
Theorem formatDateAU_empty_or_identity (s : string) :
  ~ matches_iso s ->
  formatDateAU JUndefined = Ok (JStr "") /\
  formatDateAU JNull = Ok (JStr "") /\
  formatDateAU (JStr "") = Ok (JStr "") /\
  formatDateAU (JStr s) = Ok (JStr s).
Proof.
  intros Hn. repeat split; try reflexivity. apply formatDateAU_other, Hn.
Qed.

Lemma formatDateAU_empty_or_identity_witness :
  ~ matches_iso "16/12/2025" /\
  formatDateAU (JStr "16/12/2025") = Ok (JStr "16/12/2025").
Proof.
  assert (H : ~ matches_iso "16/12/2025").
  { intros H. apply iso_re_complete in H. discriminate H. }
  split; [exact H|].
  apply (formatDateAU_empty_or_identity "16/12/2025" H).
Defined.

(** ** Profile reset *)

Lemma resetProfileClick_declined pg :
  resetProfileClick false pg
  = (Ok tt, {| ov_storage := ov_storage pg; ov_effects := ov_effects pg ++ [Confirm] |}).
Proof. reflexivity. Qed.

Lemma resetProfileClick_available pg :
  available (ov_storage pg) = true ->
  resetProfileClick true pg
  = (Ok tt,
     {| ov_storage :=
          {| available := true;
             items := delete LS_KEYS.STAMPS_PAGE (delete LS_KEYS.SELECTION
                        (delete LS_KEYS.VISITED
                           (delete OWNER_NAME (items (ov_storage pg))))) |};
        ov_effects := ov_effects pg ++ [Confirm; Reload] |}).
Proof.
  intros Hav. unfold resetProfileClick, bind, try_catch, onStorage, removeItem,
    effect, modify, ret.
  simpl. rewrite Hav. simpl. rewrite <- app_assoc. reflexivity.
Qed.

Lemma resetProfileClick_blocked pg :
  available (ov_storage pg) = false ->
  resetProfileClick true pg
  = (Ok tt,
     {| ov_storage := ov_storage pg;
        ov_effects := ov_effects pg ++
          [Confirm; Alert "Could not reset (storage not available)."] |}).
Proof.
  intros Hav. unfold resetProfileClick, bind, try_catch, onStorage, removeItem,
    effect, modify, ret.
  simpl. rewrite Hav. simpl. rewrite <- app_assoc. reflexivity.
Qed.

(** C6. Profile reset: a declined confirmation changes nothing in the
    storage and shows nothing more; an accepted one removes the four keys
    (and no other) and then reloads; when the storage throws, the user is
    alerted, nothing is removed and there is no reload. *)
Theorem resetProfile_cases (ok : bool) (pg : Overview) :
  let pg' := snd (resetProfileClick ok pg) in
  match ok, available (ov_storage pg) with
  | false, _ =>
      ov_storage pg' = ov_storage pg /\
      ov_effects pg' = ov_effects pg ++ [Confirm]
  | true, true =>
      ov_effects pg' = ov_effects pg ++ [Confirm; Reload] /\
      (forall k, In k reset_keys -> items (ov_storage pg') !! k = None) /\
      (forall k, ~ In k reset_keys ->
                 items (ov_storage pg') !! k = items (ov_storage pg) !! k)
  | true, false =>
      ov_storage pg' = ov_storage pg /\
      ov_effects pg' = ov_effects pg ++
        [Confirm; Alert "Could not reset (storage not available)."]
  end.
Proof.
  destruct ok; [|rewrite resetProfileClick_declined; split; reflexivity].
  destruct (available (ov_storage pg)) eqn:Hav.
  - rewrite (resetProfileClick_available _ Hav). simpl.
    split; [reflexivity|]. split.
    + intros k Hk. unfold reset_keys in Hk. simpl in Hk.
      rewrite !lookup_delete. repeat case_decide; try reflexivity.
      destruct Hk as [?|[?|[?|[?|[]]]]]; congruence.
    + intros k Hk. unfold reset_keys in Hk. simpl in Hk.
      rewrite !lookup_delete. repeat case_decide; try reflexivity;
        exfalso; apply Hk; auto.
  - rewrite (resetProfileClick_blocked _ Hav). split; reflexivity.
Qed.

(** ** Selection *)

Lemma js_index_In {A} (l : list A) i x : js_index l i = Some x -> In x l.
Proof.
  unfold js_index. destruct (i <? 0); [discriminate|].
  intros H. apply list_elem_of_In. eapply list_elem_of_lookup_2, H.
Qed.

(** [openInNativeMaps] falls back on the first pool: with a catalog that
    is not empty it always opens a pool of the catalog, the first one when
    the selection is out of range. *)
Lemma openInNativeMaps_clamped st p0 rest :
  pools st = p0 :: rest ->
  (exists p, openInNativeMaps st = Some p /\ In p (pools st)) /\
  (js_index (pools st) (selectedIndex st) = None -> openInNativeMaps st = Some p0).
Proof.
  intros Hp. unfold openInNativeMaps.
  destruct (js_index (pools st) (selectedIndex st)) as [p|] eqn:E.
  - split; [|discriminate]. exists p. split; [reflexivity|]. eapply js_index_In, E.
  - rewrite Hp. split; [|reflexivity]. exists p0. split; [reflexivity|]. left. reflexivity.
Qed.

Lemma js_index_None {A} (l : list A) i :
  js_index l i = None <-> i < 0 \/ Z.of_nat (length l) <= i.
Proof.
  unfold js_index. destruct (i <? 0) eqn:E.
  - apply Z.ltb_lt in E. split; [left; exact E | reflexivity].
  - apply Z.ltb_ge in E. rewrite lookup_ge_None. lia.
Qed.

(** renderList has no such fallback: with a catalog that is not empty, a
    selection out of range makes it throw, whatever the rest of the state. *)
Lemma renderList_throws st :
  pools st <> [] ->
  selectedIndex st < 0 \/ Z.of_nat (length (pools st)) <= selectedIndex st ->
  fst (renderList st)
  = Throw (TypeError "Cannot read properties of undefined (reading 'id')").
Proof.
  intros Hne Hout. apply js_index_None in Hout.
  unfold renderList.
  unfold bind at 1. unfold log at 1, modify at 1. rewrite bind_get. simpl.
  destruct (pools st) as [|p0 ps]; [congruence|].
  rewrite bind_modify. simpl. rewrite Hout. reflexivity.
Qed.

(** C4, at the failing input. With two pools and the selection 2,
    openInNativeMaps falls back on the first pool, but renderList empties
    the list and throws on [p.id]: nothing is displayed and renderStamps
    is never reached from toggleStamp. *)
Theorem renderList_out_of_range_throws :
  openInNativeMaps shrunk_catalog_app = Some woolwich /\
  fst (renderList shrunk_catalog_app)
  = Throw (TypeError "Cannot read properties of undefined (reading 'id')") /\
  poolList (snd (renderList shrunk_catalog_app)) = EmptyList /\
  calls (snd (toggleStamp "woolwich" true dec16 shrunk_catalog_app))
  = [CallWriteVisited (<["woolwich" := {| done := JBool true; date := "16/12/2025" |}]> ∅);
     CallRenderList].
Proof. repeat split; reflexivity. Qed.

(** ** Pagination *)

(** [Math.ceil(n / 3)] is the ceiling of the quotient: the least [c] with
    [n <= 3 c]. *)
Lemma ceil_thirds n :
  let c := Qceiling (inject_Z (Z.of_nat n) / inject_Z stampsPerPage) in
  3 * (c - 1) < Z.of_nat n <= 3 * c /\ c = (Z.of_nat n + 2) / 3.
Proof.
  unfold Qceiling, Qfloor, stampsPerPage. simpl.
  change (Z.pos (1 * 3)) with 3. rewrite Z.mul_1_r.
  generalize (Z.of_nat n). intros z.
  pose proof (Z.div_mod (- z) 3 ltac:(lia)) as H1.
  pose proof (Z.mod_pos_bound (- z) 3 ltac:(lia)) as H2.
  pose proof (Z.div_mod (z + 2) 3 ltac:(lia)) as H3.
  pose proof (Z.mod_pos_bound (z + 2) 3 ltac:(lia)) as H4.
  lia.
Qed.

Lemma totalPages_formula n : totalPages n = Z.max 1 ((Z.of_nat n + 2) / 3).
Proof.
  unfold totalPages. destruct (ceil_thirds n) as [_ ->]. reflexivity.
Qed.

Lemma totalPages_pos n : 1 <= totalPages n.
Proof. unfold totalPages. lia. Qed.

Lemma renderStamps_unfold popId st :
  is_Some (passportGrid st) ->
  renderStamps popId st
  = forEach (renderCard popId)
      (pagePools (visitedPools (pools st) (visited st))
         (clampPage (currentStampsPage st)
            (length (visitedPools (pools st) (visited st)))))
      (stamps_prelude popId st).
Proof.
  intros [g Hg]. unfold renderStamps, stamps_prelude.
  unfold bind, log, modify, get, writeStampsPage, swallow, bind, log, modify.
  simpl. rewrite Hg. reflexivity.
Qed.

(** What a stamps render with the grid in place leaves behind. *)
Lemma renderStamps_page popId st :
  is_Some (passportGrid st) ->
  let page := clampPage (currentStampsPage st)
                (length (visitedPools (pools st) (visited st))) in
  let st' := snd (renderStamps popId st) in
  currentStampsPage st' = page /\
  calls st' = calls st ++ [CallRenderStamps popId; CallWriteStampsPage page] /\
  (available (localStorage st) = true ->
   items (localStorage st') !! LS_KEYS.STAMPS_PAGE = Some (LSNumber page)).
Proof.
  intros Hg page st'. subst page st'.
  rewrite (renderStamps_unfold _ _ Hg).
  repeat split.
  - rewrite preserves_forEach by (intros ?; frame). reflexivity.
  - rewrite preserves_forEach by (intros ?; frame).
    unfold stamps_prelude. simpl. rewrite <- app_assoc. reflexivity.
  - intros Hav.
    rewrite (preserves_forEach (fun s => items (localStorage s) !! LS_KEYS.STAMPS_PAGE))
      by (intros ?; frame).
    unfold stamps_prelude, bind, log, modify, writeStampsPage, swallow, bind,
      log, modify, setItem.
    simpl. rewrite Hav. simpl. apply lookup_insert_eq.
Qed.




(** ** Sorting *)

Section SortFacts.
Context {A : Type} (cmp : A -> A -> Z).

Lemma sort_insert_perm x l : Permutation (sort_insert cmp x l) (x :: l).
Proof.
  induction l as [|y r IH]; simpl; [reflexivity|].
  destruct (0 <? cmp x y); [|reflexivity].
  rewrite IH. apply perm_swap.
Qed.

Lemma array_sort_perm l : Permutation (array_sort cmp l) l.
Proof.
  induction l as [|x l IH]; simpl; [reflexivity|].
  rewrite sort_insert_perm. apply perm_skip, IH.
Qed.

(** A consistent comparator: a total preorder. *)
Hypothesis cmp_total : forall a b, 0 < cmp a b -> cmp b a <= 0.
Hypothesis cmp_trans : forall a b c, cmp a b <= 0 -> cmp b c <= 0 -> cmp a c <= 0.

Lemma sort_insert_sorted x l :
  StronglySorted (sorted_by cmp) l -> StronglySorted (sorted_by cmp) (sort_insert cmp x l).
Proof.
  induction l as [|y r IH]; intros Hs; simpl.
  - repeat constructor.
  - inversion Hs as [|? ? Hr Hy]; subst.
    destruct (0 <? cmp x y) eqn:E.
    + apply Z.ltb_lt in E. unfold sorted_by in *. constructor; [apply IH, Hr|].
      eapply Permutation_Forall; [symmetry; apply sort_insert_perm|].
      constructor; [apply cmp_total, E | exact Hy].
    + apply Z.ltb_ge in E. unfold sorted_by in *. constructor; [exact Hs|].
      constructor; [exact E|].
      eapply Forall_impl; [exact Hy|].
      intros z Hz. eapply cmp_trans; [exact E | exact Hz].
Qed.

Lemma array_sort_sorted l : StronglySorted (sorted_by cmp) (array_sort cmp l).
Proof.
  induction l as [|x l IH]; simpl; [constructor|].
  apply sort_insert_sorted, IH.
Qed.
End SortFacts.

Lemma ascii_compare_lt c1 c2 :
  Ascii.compare c1 c2 = Lt <-> (nat_of_ascii c1 < nat_of_ascii c2)%nat.
Proof.
  unfold Ascii.compare, nat_of_ascii. rewrite N.compare_lt_iff. lia.
Qed.

(** [localeCompare] orders by [lex_le]. *)
Lemma localeCompare_le a b : localeCompare a b <= 0 <-> lex_le a b.
Proof.
  unfold localeCompare. split.
  - revert b. induction a as [|c1 a IH]; intros b H; [constructor|].
    destruct b as [|c2 b]; simpl in H; [lia|].
    destruct (Ascii.compare c1 c2) eqn:E.
    + apply Ascii.compare_eq_iff in E. subst. apply lex_le_same, IH, H.
    + apply lex_le_less, ascii_compare_lt, E.
    + lia.
  - intros H. induction H as [s|c1 c2 s1 s2 Hlt|c s1 s2 H IH]; simpl.
    + destruct s; simpl; lia.
    + apply ascii_compare_lt in Hlt. rewrite Hlt. lia.
    + assert (Ascii.compare c c = Eq) as ->
        by (unfold Ascii.compare; apply N.compare_refl).
      exact IH.
Qed.

Lemma localeCompare_leb a b : localeCompare a b <= 0 <-> String.le a b.
Proof.
  unfold localeCompare, String.le, String.leb.
  destruct (String.compare a b); simpl; split; intros; try done; lia.
Qed.

Lemma localeCompare_total a b : 0 < localeCompare a b -> localeCompare b a <= 0.
Proof.
  unfold localeCompare. rewrite (String.compare_antisym b a).
  destruct (String.compare a b); simpl; lia.
Qed.

Lemma localeCompare_trans a b c :
  localeCompare a b <= 0 -> localeCompare b c <= 0 -> localeCompare a c <= 0.
Proof.
  rewrite !localeCompare_leb. intros H1 H2. etrans; eassumption.
Qed.

Lemma visitedPools_perm ps m :
  Permutation (visitedPools ps m) (List.filter (fun p => isDone m (id p)) ps).
Proof. apply array_sort_perm. Qed.

Lemma visitedPools_In ps m p :
  In p (visitedPools ps m) <-> In p ps /\ isDone m (id p) = true.
Proof.
  split.
  - intros H. apply (Permutation_in _ (visitedPools_perm ps m)) in H.
    apply filter_In in H. exact H.
  - intros H.
    apply (Permutation_in _ (Permutation_sym (visitedPools_perm ps m))).
    apply filter_In. exact H.
Qed.

Lemma StronglySorted_weaken {A} (R R' : A -> A -> Prop) l :
  (forall a b, R a b -> R' a b) -> StronglySorted R l -> StronglySorted R' l.
Proof.
  intros HR Hs. induction Hs as [|a l Hs IH Ha]; constructor; [exact IH|].
  eapply Forall_impl; [exact Ha|]. intros b. apply HR.
Qed.

Lemma visitedPools_sorted ps m : StronglySorted (by_date m) (visitedPools ps m).
Proof.
  unfold visitedPools.
  eapply StronglySorted_weaken;
    [|apply array_sort_sorted].
  - intros a b H. apply localeCompare_le, H.
  - intros a b. apply localeCompare_total.
  - intros a b c. apply localeCompare_trans.
Qed.

(** ** The stamps grid *)

Lemma renderCard_ok popId p st v g :
  visited st !! id p = Some v ->
  passportGrid st = Some g ->
  renderCard popId p st
  = (Ok tt, set_passportGrid (Some (g ++ [card_of popId (visited st) p])) st).
Proof.
  intros Hv Hg. unfold renderCard. rewrite bind_get. simpl. rewrite Hv.
  unfold bind, lift. rewrite display_ok.
  unfold appendCard, modify. rewrite Hg.
  unfold card_of, date_of. rewrite Hv. reflexivity.
Qed.

Lemma forEach_renderCard popId l :
  forall st g,
    passportGrid st = Some g ->
    (forall p, In p l -> is_Some (visited st !! id p)) ->
    fst (forEach (renderCard popId) l st) = Ok tt /\
    passportGrid (snd (forEach (renderCard popId) l st))
    = Some (g ++ map (card_of popId (visited st)) l).
Proof.
  induction l as [|p l IH]; intros st g Hg Hl; simpl.
  - rewrite app_nil_r. split; [reflexivity | exact Hg].
  - destruct (Hl p (or_introl eq_refl)) as [v Hv].
    unfold bind. rewrite (renderCard_ok popId p st v g Hv Hg).
    destruct (IH (set_passportGrid (Some (g ++ [card_of popId (visited st) p])) st)
                (g ++ [card_of popId (visited st) p]) eq_refl) as [H1 H2].
    { intros q Hq. apply Hl. right. exact Hq. }
    split; [exact H1|]. rewrite H2. simpl. rewrite <- app_assoc. reflexivity.
Qed.

(** For a page that is not negative, [slice(3k, 3k + 3)] is the three
    elements from position [3k] on (fewer at the end of the array). *)
Lemma js_slice_page {A} (l : list A) k :
  0 <= k ->
  js_slice l (k * stampsPerPage) (k * stampsPerPage + stampsPerPage)
  = take 3 (drop (Z.to_nat (3 * k)) l).
Proof.
  intros Hk. unfold js_slice, stampsPerPage.
  destruct (k * 3 <? 0) eqn:E1; [apply Z.ltb_lt in E1; lia|].
  destruct (k * 3 + 3 <? 0) eqn:E2; [apply Z.ltb_lt in E2; lia|].
  destruct (decide (Z.of_nat (length l) <= k * 3)) as [Hge|Hlt].
  - rewrite !drop_ge by lia. rewrite !take_nil. reflexivity.
  - replace (Z.min (k * 3) (Z.of_nat (length l))) with (3 * k) by lia.
    destruct (decide (k * 3 + 3 <= Z.of_nat (length l))) as [Hfull|Hpart].
    + f_equal. lia.
    + rewrite !take_ge; [reflexivity| |]; rewrite length_drop; lia.
Qed.

Lemma In_take_drop {A} (l : list A) n k x : In x (take n (drop k l)) -> In x l.
Proof.
  intros H. rewrite <- (take_drop k l). apply in_or_app. right.
  rewrite <- (take_drop n (drop k l)). apply in_or_app. left. exact H.
Qed.

(** C5. With the grid in place and a page index that is not negative:
    the pools the stamps renderer keeps are exactly the catalog pools that
    have a VisitedEntry (each as often as the catalog lists it), they are
    in ascending lexicographic order of their stored date strings, and the
    grid shows, for the page [k] it settles on, the cards of the pools at
    positions [3k], [3k+1], [3k+2] of that list. *)
Theorem stamps_filter_sort_slice (st : App) (popId : option string) :
  is_Some (passportGrid st) ->
  0 <= currentStampsPage st ->
  let vp := visitedPools (pools st) (visited st) in
  let st' := snd (renderStamps popId st) in
  let k := currentStampsPage st' in
  (forall p, In p vp <-> In p (pools st) /\ hasVisitedEntry (visited st) (id p)) /\
  (forall f : PoolRecord -> bool,
     (forall p, f p = true <-> hasVisitedEntry (visited st) (id p)) ->
     Permutation vp (List.filter f (pools st))) /\
  StronglySorted (by_date (visited st)) vp /\
  fst (renderStamps popId st) = Ok tt /\
  passportGrid st'
  = Some (map (card_of popId (visited st)) (take 3 (drop (Z.to_nat (3 * k)) vp))).
Proof.
  intros Hg Hpos vp st' k.
  assert (Hin : forall p, In p vp <-> In p (pools st) /\ hasVisitedEntry (visited st) (id p)).
  { intros p. unfold vp. rewrite visitedPools_In, isDone_hasVisitedEntry. reflexivity. }
  destruct (renderStamps_page popId st Hg) as (Hp & _ & _).
  fold st' in Hp. fold k in Hp. fold vp in Hp.
  assert (Hk : 0 <= k).
  { rewrite Hp. unfold clampPage. pose proof (totalPages_pos (length vp)). lia. }
  split; [exact Hin|].
  split.
  { intros f Hf. unfold vp. rewrite visitedPools_perm.
    erewrite filter_ext; [reflexivity|].
    intros p. simpl. specialize (Hf p). rewrite <- isDone_hasVisitedEntry in Hf.
    destruct (isDone (visited st) (id p)), (f p); try reflexivity.
    - symmetry. apply Hf. reflexivity.
    - apply Hf. reflexivity. }
  split; [apply visitedPools_sorted|].
  unfold st'. rewrite (renderStamps_unfold _ _ Hg). fold vp.
  destruct (forEach_renderCard popId
              (pagePools vp (clampPage (currentStampsPage st) (length vp)))
              (stamps_prelude popId st) [] eq_refl) as [H1 H2].
  { intros p Hp'. change (visited (stamps_prelude popId st)) with (visited st).
    assert (Hv : hasVisitedEntry (visited st) (id p)).
    { apply Hin. unfold pagePools in Hp'. rewrite <- Hp in Hp'.
      rewrite js_slice_page in Hp' by exact Hk.
      eapply In_take_drop, Hp'. }
    destruct Hv as (e & He & _). eauto. }
  split; [exact H1|].
  rewrite H2. simpl.
  change (visited (stamps_prelude popId st)) with (visited st).
  unfold pagePools. rewrite <- Hp. rewrite js_slice_page by exact Hk.
  reflexivity.
Qed.

Lemma stamps_filter_sort_slice_witness :
  is_Some (passportGrid two_visited_app) /\
  0 <= currentStampsPage two_visited_app /\
  passportGrid (snd (renderStamps None two_visited_app))
  = Some [card_of None (visited two_visited_app) balmain;
          card_of None (visited two_visited_app) woolwich].
Proof.
  assert (Hg : is_Some (passportGrid two_visited_app)) by (eexists; reflexivity).
  assert (H0 : 0 <= currentStampsPage two_visited_app) by (simpl; lia).
  split; [exact Hg|]. split; [exact H0|].
  exact (proj2 (proj2 (proj2 (proj2
    (stamps_filter_sort_slice two_visited_app None Hg H0))))).
Defined.

(** ** The consumers of the [done] field *)

Lemma js_index_nil {A} i : js_index (@nil A) i = None.
Proof. unfold js_index. destruct (i <? 0); reflexivity. Qed.

(** The row renderList shows when the selection is in range. *)
Lemma renderList_row st p :
  js_index (pools st) (selectedIndex st) = Some p ->
  exists st',
    renderList st = (Ok tt, st') /\
    poolList st'
    = PoolRow
        {| row_name := name p;
           chip_stamped := strict_eq_true (opt_done (visited st !! id p));
           chip_label :=
             if strict_eq_true (opt_done (visited st !! id p))
             then VisitedOn (display (date_of (visited st) p))
             else MarkAsVisited;
           data_id := id p |}.
Proof.
  intros Hp. unfold renderList.
  unfold bind at 1. unfold log at 1, modify at 1. rewrite bind_get. simpl.
  destruct (pools st) as [|p0 ps] eqn:E; [rewrite js_index_nil in Hp; discriminate|].
  rewrite bind_modify. simpl. rewrite Hp.
  unfold date_of.
  destruct (visited st !! id p) as [e|]; simpl.
  - destruct (strict_eq_true (done e)); simpl.
    + unfold bind, lift. rewrite display_ok.
      eexists. split; reflexivity.
    + eexists. split; reflexivity.
  - eexists. split; reflexivity.
Qed.






(** ** Legacy dates on display *)

Lemma display_iso y m d : LegacyISO y m d -> display (iso_string y m d) = display_string y m d.
Proof.
  intros H. unfold display. rewrite (formatDateAU_iso _ _ _ H). reflexivity.
Qed.

(** C7. An entry whose stored date has the legacy form YYYY-MM-DD is
    displayed as DD/MM/YYYY, by the list view and on its stamp card, and
    the paths that read it for display (renderList, renderStamps) rewrite
    neither the entry in memory nor the stored map. *)
Theorem legacy_iso_displayed (y m d : string) (st : App) (popId : option string)
    (p : PoolRecord) (e : Entry) :
  LegacyISO y m d ->
  js_index (pools st) (selectedIndex st) = Some p ->
  visited st !! id p = Some e ->
  done e = JBool true ->
  date e = iso_string y m d ->
  formatDateAU (JStr (date e)) = Ok (JStr (display_string y m d)) /\
  poolList (snd (renderList st))
  = PoolRow {| row_name := name p; chip_stamped := true;
               chip_label := VisitedOn (display_string y m d);
               data_id := id p |} /\
  card_date (card_of popId (visited st) p) = display_string y m d /\
  visited (snd (renderList st)) !! id p = Some e /\
  visited (snd (renderStamps popId st)) !! id p = Some e /\
  items (localStorage (snd (renderList st))) !! LS_KEYS.VISITED
  = items (localStorage st) !! LS_KEYS.VISITED /\
  items (localStorage (snd (renderStamps popId st))) !! LS_KEYS.VISITED
  = items (localStorage st) !! LS_KEYS.VISITED.
Proof.
  intros Hiso Hp He Hdone Hdate.
  split; [rewrite Hdate; apply formatDateAU_iso, Hiso|].
  split.
  { destruct (renderList_row st p Hp) as (st' & -> & Hrow).
    simpl. rewrite Hrow. unfold date_of. rewrite He. simpl.
    rewrite Hdone, Hdate, (display_iso _ _ _ Hiso). reflexivity. }
  split.
  { unfold card_of, date_of. simpl. rewrite He, Hdate. apply display_iso, Hiso. }
  split; [rewrite renderList_visited; exact He|].
  split; [rewrite renderStamps_visited; exact He|].
  split; [apply renderList_stored_visited|].
  apply (renderStamps_stored_visited popId).
Qed.

Lemma legacy_iso_displayed_witness :
  LegacyISO "2025" "12" "16" /\
  js_index (pools legacy_app) (selectedIndex legacy_app) = Some woolwich /\
  visited legacy_app !! id woolwich
  = Some {| done := JBool true; date := "2025-12-16" |} /\
  poolList (snd (renderList legacy_app))
  = PoolRow {| row_name := "Woolwich Baths"; chip_stamped := true;
               chip_label := VisitedOn "16/12/2025"; data_id := "woolwich" |}.
Proof.
  assert (H : LegacyISO "2025" "12" "16").
  { unfold LegacyISO, all_digits. simpl. repeat split; repeat constructor. }
  split; [exact H|]. split; [reflexivity|]. split; [reflexivity|].
  exact (proj1 (proj2
    (legacy_iso_displayed "2025" "12" "16" legacy_app None woolwich
       {| done := JBool true; date := "2025-12-16" |}
       H eq_refl eq_refl eq_refl eq_refl))).
Defined.

(** * Further properties of the code *)

(** ** formatDateAU once more *)

Lemma display_string_not_iso y m d :
  LegacyISO y m d -> re_test iso_re (display_string y m d) = false.
Proof.
  intros Hiso.
  destruct (LegacyISO_inv _ _ _ Hiso)
    as (a & b & c & e & f & g & h & i & -> & -> & -> & HF).
  repeat match goal with
  | H : Forall _ (_ :: _) |- _ => inversion H; clear H; subst
  end.
  unfold re_test, iso_re, re_seq, display_string.
  cbv beta iota delta [String.append]; unfold re_char; simpl.
  repeat (match goal with
          | H : is_digit _ = true |- _ => rewrite H; clear H
          end; simpl).
  reflexivity.
Qed.

(** X1. Formatting is idempotent: what formatDateAU returns for a string
    is a string that formatDateAU returns unchanged, so a date that went
    through it once (a converted legacy date included) is stable. *)
Theorem formatDateAU_idempotent (s : string) :
  exists r, formatDateAU (JStr s) = Ok (JStr r) /\
            formatDateAU (JStr r) = Ok (JStr r).
Proof.
  destruct (re_test iso_re s) eqn:R.
  - apply iso_re_sound in R. destruct R as (y & m & d & Hiso & ->).
    exists (display_string y m d). split; [apply formatDateAU_iso, Hiso|].
    apply formatDateAU_other. intros H. apply iso_re_complete in H.
    rewrite (display_string_not_iso _ _ _ Hiso) in H. discriminate H.
  - assert (Hn : ~ matches_iso s).
    { intros H. apply iso_re_complete in H. congruence. }
    exists s. split; apply formatDateAU_other, Hn.
Qed.

(** ** Toggling twice *)


(** ** Rendering twice *)

Lemma renderList_selectedIndex : preserves selectedIndex renderList.
Proof. unfold renderList. frame. Qed.

(** The three ways renderList ends. *)
Lemma renderList_empty st :
  pools st = [] ->
  exists st',
    renderList st = (Ok tt, st') /\
    poolList st' = NoPoolsLoaded /\
    countBadge st' = countBadge st.
Proof.
  intros Hp. unfold renderList.
  unfold bind at 1. unfold log at 1, modify at 1. rewrite bind_get. simpl.
  rewrite Hp. eexists. repeat split; reflexivity.
Qed.

Lemma renderList_out_of_range st :
  pools st <> [] ->
  js_index (pools st) (selectedIndex st) = None ->
  exists st',
    renderList st
    = (Throw (TypeError "Cannot read properties of undefined (reading 'id')"), st') /\
    poolList st' = EmptyList /\
    countBadge st' = countBadge st.
Proof.
  intros Hne Hout. unfold renderList.
  unfold bind at 1. unfold log at 1, modify at 1. rewrite bind_get. simpl.
  destruct (pools st) as [|p0 ps]; [congruence|].
  rewrite bind_modify. simpl. rewrite Hout. eexists. repeat split; reflexivity.
Qed.

Lemma renderList_in_range st p :
  js_index (pools st) (selectedIndex st) = Some p ->
  exists st',
    renderList st = (Ok tt, st') /\
    poolList st'
    = PoolRow
        {| row_name := name p;
           chip_stamped := strict_eq_true (opt_done (visited st !! id p));
           chip_label :=
             if strict_eq_true (opt_done (visited st !! id p))
             then VisitedOn (display (date_of (visited st) p))
             else MarkAsVisited;
           data_id := id p |} /\
    countBadge st'
    = pretty (countVisited (visited st)) +:+ " / " +:+
      pretty (Z.of_nat (length (pools st))).
Proof.
  intros Hp. unfold renderList.
  unfold bind at 1. unfold log at 1, modify at 1. rewrite bind_get. simpl.
  destruct (pools st) as [|p0 ps] eqn:E; [rewrite js_index_nil in Hp; discriminate|].
  rewrite bind_modify. simpl. rewrite Hp.
  unfold date_of.
  destruct (visited st !! id p) as [e|]; simpl.
  - destruct (strict_eq_true (done e)); simpl.
    + unfold bind, lift. rewrite display_ok. eexists. repeat split; reflexivity.
    + eexists. repeat split; reflexivity.
  - eexists. repeat split; reflexivity.
Qed.

(** X3. Rendering the list twice shows what rendering it once shows: the
    same outcome (return or throw), the same row and the same badge; and a
    list render never touches the storage, the visited map or the stamps
    grid. *)
Theorem renderList_idempotent (st : App) :
  let st1 := snd (renderList st) in
  let st2 := snd (renderList st1) in
  fst (renderList st1) = fst (renderList st) /\
  poolList st2 = poolList st1 /\
  countBadge st2 = countBadge st1 /\
  localStorage st2 = localStorage st /\
  visited st2 = visited st /\
  passportGrid st2 = passportGrid st.
Proof.
  intros st1 st2. subst st2.
  remember (snd (renderList st)) as st1' eqn:Hst1. subst st1.
  assert (Hpools : pools st1' = pools st) by (subst; apply renderList_pools).
  assert (Hvis : visited st1' = visited st) by (subst; apply renderList_visited).
  assert (Hsel : selectedIndex st1' = selectedIndex st)
    by (subst; apply renderList_selectedIndex).
  assert (Hrest : localStorage (snd (renderList st1')) = localStorage st /\
                  visited (snd (renderList st1')) = visited st /\
                  passportGrid (snd (renderList st1')) = passportGrid st).
  { rewrite renderList_localStorage, renderList_visited, renderList_passportGrid.
    subst st1'.
    rewrite renderList_localStorage, renderList_passportGrid, renderList_visited.
    auto. }
  destruct Hrest as (R1 & R2 & R3).
  cut (fst (renderList st1') = fst (renderList st) /\
       poolList (snd (renderList st1')) = poolList st1' /\
       countBadge (snd (renderList st1')) = countBadge st1');
    [tauto|].
  clear R1 R2 R3.
  destruct (js_index (pools st) (selectedIndex st)) as [p|] eqn:Hidx.
  - assert (Hidx1 : js_index (pools st1') (selectedIndex st1') = Some p)
      by (rewrite Hpools, Hsel; exact Hidx).
    destruct (renderList_in_range st1' p Hidx1) as (st2 & -> & H2' & H3').
    rewrite Hvis in H2'. rewrite Hvis, Hpools in H3'.
    destruct (renderList_in_range st p Hidx) as (st1 & Heq & H2 & H3).
    rewrite Heq in Hst1 |- *. simpl in Hst1 |- *. subst st1'.
    repeat split; congruence.
  - destruct (pools st) as [|p0 ps] eqn:Hp.
    + destruct (renderList_empty st1' Hpools) as (st2 & -> & H2' & H3').
      destruct (renderList_empty st Hp) as (st1 & Heq & H2 & H3).
      rewrite Heq in Hst1 |- *. simpl in Hst1 |- *. subst st1'.
      repeat split; congruence.
    + assert (Hne1 : pools st1' <> []) by (rewrite Hpools; discriminate).
      assert (Hidx1 : js_index (pools st1') (selectedIndex st1') = None)
        by (rewrite Hpools, Hsel; exact Hidx).
      assert (Hne : pools st <> []) by (rewrite Hp; discriminate).
      rewrite <- Hp in Hidx.
      destruct (renderList_out_of_range st1' Hne1 Hidx1) as (st2 & -> & H2' & H3').
      destruct (renderList_out_of_range st Hne Hidx) as (st1 & Heq & H2 & H3).
      rewrite Heq in Hst1 |- *. simpl in Hst1 |- *. subst st1'.
      repeat split; congruence.
Qed.

Lemma In_js_slice {A} (l : list A) a b x : In x (js_slice l a b) -> In x l.
Proof. unfold js_slice. apply In_take_drop. Qed.

(** The grid after a stamps render, whatever the page index. *)
Lemma renderStamps_grid popId st :
  is_Some (passportGrid st) ->
  fst (renderStamps popId st) = Ok tt /\
  passportGrid (snd (renderStamps popId st))
  = Some (map (card_of popId (visited st))
            (pagePools (visitedPools (pools st) (visited st))
               (clampPage (currentStampsPage st)
                  (length (visitedPools (pools st) (visited st)))))).
Proof.
  intros Hg. rewrite (renderStamps_unfold _ _ Hg).
  destruct (forEach_renderCard popId
              (pagePools (visitedPools (pools st) (visited st))
                 (clampPage (currentStampsPage st)
                    (length (visitedPools (pools st) (visited st)))))
              (stamps_prelude popId st) [] eq_refl) as [H1 H2].
  - intros p Hp. change (visited (stamps_prelude popId st)) with (visited st).
    apply In_js_slice, visitedPools_In in Hp. destruct Hp as [_ Hp].
    apply isDone_hasVisitedEntry in Hp. destruct Hp as (e & He & _). eauto.
  - split; [exact H1|]. rewrite H2. reflexivity.
Qed.

Lemma renderStamps_no_grid popId st :
  passportGrid st = None ->
  renderStamps popId st = (Ok tt, snd (log (CallRenderStamps popId) st)).
Proof.
  intros Hg. unfold renderStamps, bind, log, modify, get. simpl. rewrite Hg.
  reflexivity.
Qed.

Lemma renderStamps_localStorage popId st :
  is_Some (passportGrid st) ->
  localStorage (snd (renderStamps popId st))
  = snd (setItem LS_KEYS.STAMPS_PAGE
           (LSNumber (clampPage (currentStampsPage st)
                        (length (visitedPools (pools st) (visited st)))))
           (localStorage st)).
Proof.
  intros Hg. rewrite (renderStamps_unfold _ _ Hg).
  rewrite preserves_forEach by (intros ?; frame). reflexivity.
Qed.

Lemma renderStamps_poolList popId : preserves poolList (renderStamps popId).
Proof. unfold renderStamps. frame. Qed.

Lemma setItem_twice k v ls :
  snd (setItem k v (snd (setItem k v ls))) = snd (setItem k v ls).
Proof.
  unfold setItem. destruct (available ls) eqn:E; simpl; [|rewrite E; reflexivity].
  rewrite insert_insert_eq. reflexivity.
Qed.

Lemma clampPage_twice page n : clampPage (clampPage page n) n = clampPage page n.
Proof. unfold clampPage. lia. Qed.

(** X4. Rendering the stamps twice (same emphasis flag) shows what
    rendering them once shows: the same cards, the same clamped page in
    memory and the same storage; and a stamps render never touches the
    list view or the visited map. *)
Theorem renderStamps_idempotent (st : App) (popId : option string) :
  let st1 := snd (renderStamps popId st) in
  let st2 := snd (renderStamps popId st1) in
  fst (renderStamps popId st1) = fst (renderStamps popId st) /\
  passportGrid st2 = passportGrid st1 /\
  currentStampsPage st2 = currentStampsPage st1 /\
  localStorage st2 = localStorage st1 /\
  poolList st2 = poolList st /\
  visited st2 = visited st.
Proof.
  intros st1 st2. subst st2 st1.
  remember (snd (renderStamps popId st)) as st1 eqn:Hst1.
  assert (Hpools : pools st1 = pools st) by (subst; apply renderStamps_pools).
  assert (Hvis : visited st1 = visited st) by (subst; apply renderStamps_visited).
  assert (Hlist : poolList (snd (renderStamps popId st1)) = poolList st).
  { rewrite renderStamps_poolList. subst. apply renderStamps_poolList. }
  assert (Hvis2 : visited (snd (renderStamps popId st1)) = visited st).
  { rewrite renderStamps_visited. exact Hvis. }
  cut (fst (renderStamps popId st1) = fst (renderStamps popId st) /\
       passportGrid (snd (renderStamps popId st1)) = passportGrid st1 /\
       currentStampsPage (snd (renderStamps popId st1)) = currentStampsPage st1 /\
       localStorage (snd (renderStamps popId st1)) = localStorage st1);
    [tauto|].
  clear Hlist Hvis2.
  destruct (passportGrid st) as [g|] eqn:Hg.
  - assert (Hsome : is_Some (passportGrid st)) by (rewrite Hg; eauto).
    destruct (renderStamps_grid popId st Hsome) as [H1 H2].
    destruct (renderStamps_page popId st Hsome) as (H3 & _ & _).
    pose proof (renderStamps_localStorage popId st Hsome) as H4.
    rewrite <- Hst1 in H2, H3, H4.
    assert (Hsome1 : is_Some (passportGrid st1)) by (rewrite H2; eauto).
    destruct (renderStamps_grid popId st1 Hsome1) as [H1' H2'].
    destruct (renderStamps_page popId st1 Hsome1) as (H3' & _ & _).
    pose proof (renderStamps_localStorage popId st1 Hsome1) as H4'.
    rewrite Hpools, Hvis, H3 in H2', H3', H4'.
    rewrite clampPage_twice in H2', H3', H4'.
    rewrite H4, setItem_twice in H4'.
    repeat split; congruence.
  - assert (Hg1 : passportGrid st1 = None).
    { subst st1. rewrite (renderStamps_no_grid _ _ Hg). exact Hg. }
    rewrite (renderStamps_no_grid _ _ Hg1), (renderStamps_no_grid _ _ Hg).
    simpl. repeat split; reflexivity.
Qed.

(** ** Pages *)

Lemma totalPages_bound n i :
  (i < n)%nat -> Z.of_nat (i / 3) <= totalPages n - 1.
Proof.
  intros Hi. rewrite totalPages_formula.
  pose proof (Nat.div_mod_eq i 3) as H1.
  pose proof (Nat.mod_upper_bound i 3 ltac:(lia)) as H2.
  pose proof (Z.div_mod (Z.of_nat n + 2) 3 ltac:(lia)) as H3.
  pose proof (Z.mod_pos_bound (Z.of_nat n + 2) 3 ltac:(lia)) as H4.
  lia.
Qed.

(** X5. Pagination loses no stamp: the pool at position [i] of the
    ordered list of visited pools is card number [i mod 3] of page
    [i / 3], and that page exists (it is at most the last page, so the
    clamp of renderStamps leaves it alone). *)
Theorem stamp_on_its_page (vp : list PoolRecord) (i : nat) (p : PoolRecord) :
  vp !! i = Some p ->
  let k := Z.of_nat (i / 3) in
  0 <= k <= totalPages (length vp) - 1 /\
  clampPage k (length vp) = k /\
  pagePools vp k !! (i mod 3)%nat = Some p.
Proof.
  intros Hi k.
  assert (Hlt : (i < length vp)%nat) by (eapply lookup_lt_Some, Hi).
  pose proof (totalPages_bound (length vp) i Hlt) as Hb. fold k in Hb.
  assert (Hk : 0 <= k) by (unfold k; lia).
  split; [lia|]. split; [unfold clampPage; lia|].
  unfold pagePools. rewrite js_slice_page by exact Hk.
  pose proof (Nat.div_mod_eq i 3) as H1.
  pose proof (Nat.mod_upper_bound i 3 ltac:(lia)) as H2.
  rewrite lookup_take_lt by lia. rewrite lookup_drop.
  replace (Z.to_nat (3 * k) + i mod 3)%nat with i by (unfold k; lia).
  exact Hi.
Qed.

Lemma stamp_on_its_page_witness :
  [woolwich; balmain; woolwich; balmain] !! 3%nat = Some balmain /\
  pagePools [woolwich; balmain; woolwich; balmain] 1 !! 0%nat = Some balmain.
Proof.
  split; [reflexivity|].
  exact (proj2 (proj2
    (stamp_on_its_page [woolwich; balmain; woolwich; balmain] 3 balmain eq_refl))).
Defined.

(** X6. With the grid in place and a page index that is not negative, a
    stamps render never leaves a blank page while a catalog pool is
    visited: the grid holds between one and three cards, and none only
    when no catalog pool is visited. *)
Theorem stamps_page_never_blank (st : App) (popId : option string) :
  is_Some (passportGrid st) ->
  0 <= currentStampsPage st ->
  exists cards,
    passportGrid (snd (renderStamps popId st)) = Some cards /\
    (length cards <= 3)%nat /\
    (cards = [] <-> visitedPools (pools st) (visited st) = []).
Proof.
  intros Hg Hpos.
  destruct (renderStamps_grid popId st Hg) as [_ ->].
  set (vp := visitedPools (pools st) (visited st)).
  set (k := clampPage (currentStampsPage st) (length vp)).
  pose proof (totalPages_pos (length vp)) as Hp.
  assert (Hk : 0 <= k) by (unfold k, clampPage; lia).
  eexists. split; [reflexivity|].
  unfold pagePools. rewrite js_slice_page by exact Hk.
  split.
  - rewrite length_map, length_take. lia.
  - split.
    + intros H. apply (f_equal length) in H.
      rewrite length_map, length_take, length_drop in H.
      destruct vp as [|p vp'] eqn:E; [reflexivity|]. exfalso.
      assert (Hlt : 3 * k < Z.of_nat (length (p :: vp'))).
      { unfold k, clampPage. rewrite totalPages_formula.
        pose proof (Z.div_mod (Z.of_nat (length (p :: vp')) + 2) 3 ltac:(lia)) as H3.
        pose proof (Z.mod_pos_bound (Z.of_nat (length (p :: vp')) + 2) 3 ltac:(lia)) as H4.
        simpl length in *. lia. }
      simpl length in *. lia.
    + intros ->. rewrite drop_nil, take_nil. reflexivity.
Qed.

Lemma stamps_page_never_blank_witness :
  is_Some (passportGrid two_visited_app) /\
  0 <= currentStampsPage two_visited_app /\
  exists cards,
    passportGrid (snd (renderStamps None two_visited_app)) = Some cards /\
    (length cards <= 3)%nat.
Proof.
  assert (Hg : is_Some (passportGrid two_visited_app)) by (eexists; reflexivity).
  assert (H0 : 0 <= currentStampsPage two_visited_app) by (simpl; lia).
  split; [exact Hg|]. split; [exact H0|].
  destruct (stamps_page_never_blank two_visited_app None Hg H0)
    as (cards & H1 & H2 & _).
  exists cards. split; assumption.
Defined.

(** ** The order of the gallery *)

Section Stability.
Context {A : Type} (cmp : A -> A -> Z) (P : A -> bool).
Hypothesis P_tied : forall x y, P x = true -> P y = true -> cmp x y <= 0.

Lemma sort_insert_filter x l :
  List.filter P (sort_insert cmp x l) = List.filter P (x :: l).
Proof.
  induction l as [|y r IH]; [reflexivity|].
  simpl sort_insert. destruct (0 <? cmp x y) eqn:E; [|reflexivity].
  apply Z.ltb_lt in E.
  change (List.filter P (y :: sort_insert cmp x r))
    with (if P y then y :: List.filter P (sort_insert cmp x r)
          else List.filter P (sort_insert cmp x r)).
  rewrite IH. simpl.
  destruct (P x) eqn:Hx, (P y) eqn:Hy; try reflexivity.
  pose proof (P_tied x y Hx Hy). lia.
Qed.

Lemma array_sort_stable l :
  List.filter P (array_sort cmp l) = List.filter P l.
Proof.
  induction l as [|x l IH]; [reflexivity|].
  simpl array_sort. rewrite sort_insert_filter. simpl. rewrite IH. reflexivity.
Qed.
End Stability.

Lemma localeCompare_refl d : localeCompare d d <= 0.
Proof. apply localeCompare_leb. reflexivity. Qed.

(** X7. The sort of the gallery is stable: the visited pools stamped with
    one and the same date string stand in the gallery in the order of the
    catalog. *)
Theorem same_date_keeps_catalog_order (ps : list PoolRecord)
    (m : gmap string Entry) (d : string) :
  List.filter (fun p => String.eqb (date_of m p) d) (visitedPools ps m)
  = List.filter (fun p => String.eqb (date_of m p) d)
      (List.filter (fun p => isDone m (id p)) ps).
Proof.
  unfold visitedPools. apply array_sort_stable.
  intros x y Hx Hy. apply String.eqb_eq in Hx, Hy. rewrite Hx, Hy.
  apply localeCompare_refl.
Qed.

(** ** The overview and the gallery *)

Lemma overviewIsVisited_isDone m p : overviewIsVisited m p = isDone m (id p).
Proof. unfold overviewIsVisited. rewrite negb_involutive. reflexivity. Qed.

Lemma createOverviewIcon_visited b : createOverviewIcon b = VISITED_MARKER <-> b = true.
Proof. destruct b; split; intros H; try reflexivity; discriminate H. Qed.

(** X8. The two pages agree on who is visited: the overview draws a
    pool with the visited marker exactly when the stamps gallery of the
    application page lists it, it draws one marker per catalog pool, and
    it draws as many visited markers as the gallery has stamps. *)
Theorem overview_agrees_with_gallery (ps : list PoolRecord) (m : gmap string Entry) :
  (forall p, In (p, VISITED_MARKER) (overviewMarkers ps m) <-> In p (visitedPools ps m)) /\
  length (overviewMarkers ps m) = length ps /\
  length (List.filter (fun mk => String.eqb (snd mk) VISITED_MARKER)
            (overviewMarkers ps m))
  = length (visitedPools ps m).
Proof.
  split; [|split].
  - intros p. rewrite visitedPools_In. unfold overviewMarkers.
    rewrite in_map_iff. split.
    + intros (q & [= -> Hq] & Hin). split; [exact Hin|].
      rewrite <- overviewIsVisited_isDone. apply createOverviewIcon_visited, Hq.
    + intros [Hin Hd]. exists p. split; [|exact Hin].
      f_equal. apply createOverviewIcon_visited.
      rewrite overviewIsVisited_isDone. exact Hd.
  - unfold overviewMarkers. apply length_map.
  - rewrite (Permutation_length (visitedPools_perm ps m)).
    unfold overviewMarkers.
    induction ps as [|p ps IH]; [reflexivity|].
    simpl. rewrite overviewIsVisited_isDone.
    destruct (isDone m (id p)); simpl; rewrite IH; reflexivity.
Qed.
